(** * Diagonal Source Transfer preconditioner (examples/maxwell-solver/DST/DST.cpp)

    A shallow embedding of [DST::DST], [DST::Mult], [DST::GetCutOffSolution],
    [DST::Getijk], [DST::GetPatchId] and [DST::TransferSources], followed by
    the properties of the sweep schedule and of the source-transfer rule.
    The modules [Dev] and [MassPA] embed the backend parsing of
    general/device.cpp and the kernel selection of
    fem/bilininteg_mass_pa.cpp.

    Conventions.
    - A C++ [int] is a [Z]; the grid sizes, patch ids and sweep indices of
      this file stay far inside the 32-bit range, where signed arithmetic
      does not wrap.  [/] and [%] on [int] are [Z.quot] and [Z.rem].
    - A C++ [double] is a primitive binary64 [float]; a [Vector] is the list
      of its entries.
    - [Vector::Norml2] is not under src; [Mult] takes it as a parameter.
    - The members [f_orig] and [f_transf] are reached through pointers and
      are written by the [const] method [Mult]; they are threaded explicitly
      as a [State], together with the output vector [z].
    - [MFEM_VERIFY] aborts the program; a computation that can reach it
      returns an [outcome]. *)

From Stdlib Require Import ZArith Floats Lia Bool Ascii String.
From stdpp Require Import base list sorting.

#[local] Open Scope Z_scope.

(** ** Outcomes: a run either finishes or dies in [MFEM_VERIFY] *)

Inductive outcome (A : Type) : Type :=
| Done (a : A)
| Aborted (msg : string).
Arguments Done {A} a.
Arguments Aborted {A} msg.

Definition obind {A B} (m : outcome A) (k : A -> outcome B) : outcome B :=
  match m with
  | Done a => k a
  | Aborted msg => Aborted msg
  end.

Notation "x <-- m ;; k" := (obind m (fun x => k))
  (at level 100, m at next level, right associativity).

(** [for (x : xs) body], where the body may abort. *)
Fixpoint forM {A S} (body : A -> S -> outcome S) (xs : list A) (s : S) : outcome S :=
  match xs with
  | [] => Done s
  | x :: xs' => s' <-- body x s ;; forM body xs' s'
  end.

(** [for (int i = 0; i < n; i++)] ranges over [range n]. *)
Definition range (n : Z) : list Z := Z.of_nat <$> seq 0 (Z.to_nat n).

(** ** Vectors *)

Module Vec.

Definition Vector : Type := list float.

(** [Vector v(n); v = 0.0]. *)
Definition zero (n : nat) : Vector := replicate n 0%float.

(** Modelled from the spec: [Vector::operator=(double)] is not under src;
    [v = 0.0] zeroes every entry and keeps the size. *)
Definition fill0 (v : Vector) : Vector := zero (length v).

(** Modelled from the spec: [Vector::operator+=(const Vector &)] is not under
    src; [a += b] adds entry by entry into [a] (accumulation).  The library
    requires equal sizes; entries of [a] without a partner are left alone. *)
Fixpoint add (a b : Vector) : Vector :=
  match a, b with
  | x :: a', y :: b' => (x + y)%float :: add a' b'
  | _, _ => a
  end.

(** [v *= c]. *)
Definition scale (c : float) (v : Vector) : Vector := (fun x => (x * c)%float) <$> v.

(** Modelled from the spec: [Vector::GetSubVector] is not under src; it
    gathers the entries of a global vector at a patch's true-DOF indices. *)
Definition GetSubVector (v : Vector) (dofs : list nat) : Vector :=
  (fun j => nth j v 0%float) <$> dofs.

(** Modelled from the spec: [Vector::SetSubVector] is not under src; it
    scatters a local vector into the global one at the patch's indices. *)
Definition SetSubVector (v : Vector) (dofs : list nat) (elemv : Vector) : Vector :=
  foldl (fun acc je => <[fst je := snd je]> acc) v (zip dofs elemv).

End Vec.
Export Vec.

(** [int] to [double] conversion. *)
Definition Z2float (n : Z) : float :=
  if n <? 0 then (- PrimFloat.of_uint63 (Uint63.of_Z (- n)))%float
  else PrimFloat.of_uint63 (Uint63.of_Z n).

(** ** The preconditioner object *)

(** [Array2D<double> pmlh(dim,2)] of [GetCutOffSolution], row by row. *)
Definition Pmlh : Type := (float * float) * (float * float).

(** The members of [DST] that [Mult] reads.  The factorised local solves,
    the local operators, the partition and the DOF map are external
    collaborators; each is present through what the methods ask of it. *)
Record DST : Type := {
  dim : Z;                               (* mesh->Dimension() *)
  nrlayers : Z;
  nxyz : Z -> Z;                         (* nxyz[0..2] *)
  nrpatch : Z;
  subdomains : Z -> Z -> Z -> Z;         (* Array3D<int> of patch ids *)
  gTrueVSize : Z;                        (* bf->FESpace()->GetTrueVSize() *)
  TrueVSize : Z -> Z;                    (* ovlp_prob->fespaces[ip]->GetTrueVSize() *)
  Dof2GlobalDof : Z -> list nat;         (* ovlp_prob->Dof2GlobalDof[ip] *)
  PmlMat : Z -> Vector -> Vector;        (* PmlMat[ip]->Mult *)
  PmlMatInv : Z -> Vector -> Vector;     (* PmlMatInv[ip]->Mult *)
  mesh_h : Z -> float;                   (* GetUniformMeshElementSize(povlp->patch_mesh[ip]) *)
  CutOffFncn : bool -> Z -> Pmlh -> nat -> float
    (* the CutOffFnCoefficient built from the bounding box of patch ip and
       pmlh, evaluated at the node of degree of freedom k *)
}.

(** [nsweeps = pow(2,dim)]. *)
Definition nsweeps (d : DST) : Z := 2 ^ dim d.

(** The sweep table filled by the constructor ("2D"): [sweeps(l,c)].  Rows
    past the fourth are never assigned; they read as 0 here. *)
Definition sweeps (l c : Z) : Z :=
  match l, c with
  | 0, 0 => 1  | 0, 1 => 1
  | 1, 0 => -1 | 1, 1 => 1
  | 2, 0 => 1  | 2, 1 => -1
  | 3, 0 => -1 | 3, 1 => -1
  | _, _ => 0
  end.

(** ** Mutable state of one object *)

(** A ghost record of what a run does, in program order. *)
Inductive Event : Type :=
| EvVisit (l ip : Z)            (* the residual of patch ip is formed in sweep l *)
| EvSolve (l ip : Z)            (* PmlMatInv[ip]->Mult in sweep l *)
| EvTransfer (l ip0 ip1 l' : Z) (* *f_transf[ip1][l'] += res1, from ip0 in sweep l *)
| EvCorrect (l ip : Z).         (* z += znew for patch ip *)

Record State : Type := {
  f_orig : list Vector;
  f_transf : list (list Vector);
  z : Vector;
  trace : list Event
}.

(** Array access by an [int] index. *)
Definition at_ {A} (xs : list A) (i : Z) : option A :=
  if i <? 0 then None else xs !! Z.to_nat i.

Definition alter_at {A} (f : A -> A) (i : Z) (xs : list A) : list A :=
  if i <? 0 then xs else alter f (Z.to_nat i) xs.

(** [*f_orig[ip]] and [*f_transf[ip][l]]. *)
Definition orig_at (st : State) (ip : Z) : Vector :=
  default [] (at_ (f_orig st) ip).

Definition transf_at (st : State) (ip l : Z) : Vector :=
  default [] (row ← at_ (f_transf st) ip; at_ row l).

Definition set_f_orig (fo : list Vector) (st : State) : State :=
  {| f_orig := fo; f_transf := f_transf st; z := z st; trace := trace st |}.

Definition set_f_transf (ft : list (list Vector)) (st : State) : State :=
  {| f_orig := f_orig st; f_transf := ft; z := z st; trace := trace st |}.

Definition set_z (z' : Vector) (st : State) : State :=
  {| f_orig := f_orig st; f_transf := f_transf st; z := z'; trace := trace st |}.

Definition log (e : Event) (st : State) : State :=
  {| f_orig := f_orig st; f_transf := f_transf st; z := z st;
     trace := trace st ++ [e] |}.

(** ** [DST::GetCutOffSolution] *)

(** Modelled from the spec: [GridFunctionCoefficient], [ProductCoefficient]
    and [ComplexGridFunction::ProjectCoefficient] are not under src; by
    section 4.4 the projection multiplies the solution, real and imaginary
    parts independently, by the cutoff coefficient.  [n] is the number of
    true degrees of freedom; the real part is [data[0..n)], the imaginary
    part [data[n..2n)]. *)
Definition ProjectProduct (cf : nat -> float) (n : nat) (data : Vector) : Vector :=
  ((fun k => (nth k data 0 * cf k)%float) <$> seq 0 n) ++
  ((fun k => (nth (n + k) data 0 * cf k)%float) <$> seq 0 n).

Definition cutoff_widths (h : float) (directions : Z * Z) (nlayers : Z) : Pmlh :=
  let w := (h * Z2float nlayers)%float in
  let x1 := if fst directions =? 1 then w else 0%float in
  let x0 := if fst directions =? -1 then w else 0%float in
  let y1 := if snd directions =? 1 then w else 0%float in
  let y0 := if snd directions =? -1 then w else 0%float in
  ((x0, x1), (y0, y1)).

Definition GetCutOffSolution (d : DST) (sol : Vector) (ip : Z)
    (directions : Z * Z) (nlayers : Z) (local : bool) : Vector :=
  let h := mesh_h d ip in
  let pmlh := cutoff_widths h directions nlayers in
  let n := if local then TrueVSize d ip else gTrueVSize d in
  ProjectProduct (CutOffFncn d local ip pmlh) (Z.to_nat n) sol.

(** ** [DST::Getijk] and [DST::GetPatchId] *)

Definition Getijk (d : DST) (ip : Z) : Z * Z * Z :=
  let k := Z.quot ip (nxyz d 0 * nxyz d 1) in
  let j := Z.quot (ip - k * nxyz d 0 * nxyz d 1) (nxyz d 0) in
  let i := Z.rem (ip - k * nxyz d 0 * nxyz d 1) (nxyz d 0) in
  (i, j, k).

(** [ijk] is an [Array<int>]; every call site passes two entries. *)
Definition GetPatchId (d : DST) (ijk : list Z) : Z :=
  let z := if dim d =? 2 then 0 else nth 2 ijk 0 in
  subdomains d (nth 0 ijk 0) (nth 1 ijk 0) z.

(** ** [DST::TransferSources] *)

(** The loop [for (int l=sweep; l<nsweeps; l++)] over its remaining indices
    [ls]: the first sweep that passes the two tests receives [res1]. *)
Fixpoint deliver (sweep ip0 ip1 i j : Z) (res1 : Vector) (ls : list Z)
    (st : State) : outcome State :=
  match ls with
  | [] => Done st
  | l :: ls' =>
      let is_ := sweeps l 0 in
      let js := sweeps l 1 in
      let ddot := is_ * i + js * j in
      if ddot <=? 0 then deliver sweep ip0 ip1 i j res1 ls' st
      else
        let il := sweeps l 0 in
        let jl := sweeps l 1 in
        if ((i =? 0) || (j =? 0)) && ((is_ =? - il) && (js =? - jl))
        then deliver sweep ip0 ip1 i j res1 ls' st
        else
          if Nat.eqb (length (transf_at st ip1 l)) (length res1)
          then Done (log (EvTransfer sweep ip0 ip1 l)
                 (set_f_transf
                    (alter_at (alter_at (fun v => Vec.add v res1) l) ip1 (f_transf st))
                    st))
          else Aborted "Transfer Sources: inconsistent size"
  end.

(** The sweep indices [sweep, sweep+1, ..., nsweeps-1]. *)
Definition sweeps_from (d : DST) (sweep : Z) : list Z :=
  (fun l => sweep + l) <$> range (nsweeps d - sweep).

(** The residual sent from [ip0] towards the neighbour [ip1] in direction
    [(i,j)], in the local indexing of [ip1]. *)
Definition transfer_residual (d : DST) (ip0 ip1 i j : Z) (sol0 : Vector) : Vector :=
  let cfsol0 := GetCutOffSolution d sol0 ip0 (i, j) (nrlayers d) true in
  let res0 := Vec.scale (-1)%float (PmlMat d ip0 cfsol0) in
  let gdofs := 2 * gTrueVSize d in
  let znew := Vec.zero (Z.to_nat gdofs) in
  let znew := SetSubVector znew (Dof2GlobalDof d ip0) res0 in
  GetSubVector znew (Dof2GlobalDof d ip1).

Definition TransferSources (d : DST) (sweep ip0 : Z) (sol0 : Vector)
    (st : State) : outcome State :=
  let nx := nxyz d 0 in
  let ny := nxyz d 1 in
  let '(i0, j0, k0) := Getijk d ip0 in
  forM (fun i st =>
    let i1 := i0 + i in
    if (i1 <? 0) || (i1 >=? nx) then Done st else
    forM (fun j st =>
      if (i =? 0) && (j =? 0) then Done st else
      let j1 := j0 + j in
      if (j1 <? 0) || (j1 >=? ny) then Done st else
      let ip1 := GetPatchId d [i1; j1] in
      let res1 := transfer_residual d ip0 ip1 i j sol0 in
      deliver sweep ip0 ip1 i j res1 (sweeps_from d sweep) st)
      [-1; 0; 1] st)
    [-1; 0; 1] st.

(** ** [DST::Mult] *)

(** The [switch (l)] that derives [j] from the front [s] and the column [i]. *)
Definition front_j (l nx ny s i : Z) : Z :=
  match l with
  | 0 => s - i
  | 1 => s - nx + i + 1
  | 2 => nx + i - s - 1
  | _ => nx + ny - i - s - 2
  end.

(** The patches of front [s]: [for (i...) { j = ...; if (j<0 || j>=ny) continue; ... }]. *)
Definition front (l nx ny s : Z) : list (Z * Z) :=
  omap (fun i => let j := front_j l nx ny s i in
                 if (j <? 0) || (j >=? ny) then None else Some (i, j))
       (range nx).

(** The order in which sweep [l] reaches the patch grid, front after front. *)
Definition sweep_order (l nx ny : Z) : list (Z * Z * Z) :=
  s ← range (nx + ny - 1); (fun ij => (s, fst ij, snd ij)) <$> front l nx ny s.

Definition threshold : float := 0x1.5fd7fe1796495p-37%float. (* 1e-11 *)

Section WithNorm.

(** [Vector::Norml2] is not under src and is a parameter of [Mult]. *)
Variable Norml2 : Vector -> float.

(** [res_local] of patch [ip] in sweep [l]. *)
Definition local_residual (d : DST) (l ip : Z) (st : State) : Vector :=
  let ndofs := length (Dof2GlobalDof d ip) in
  let res_local := Vec.zero ndofs in
  let res_local := if l =? 0 then Vec.add res_local (orig_at st ip) else res_local in
  Vec.add res_local (transf_at st ip l).

(** The two cutoffs applied to the local solution before it is added to [z]. *)
Definition windowed_solution (d : DST) (ip i j : Z) (sol_local : Vector) : Vector :=
  let nx := nxyz d 0 in
  let ny := nxyz d 1 in
  let directions := (if i + 1 <? nx then 1 else 0, if j + 1 <? ny then 1 else 0) in
  let cfsol_local := GetCutOffSolution d sol_local ip directions (nrlayers d) true in
  let sol_local := cfsol_local in
  let directions := (if i >? 0 then -1 else 0, if j >? 0 then -1 else 0) in
  GetCutOffSolution d sol_local ip directions (nrlayers d) true.

(** The body of the innermost loop of [Mult], after [j] passed the range test. *)
Definition visit_patch (d : DST) (l : Z) (sij : Z * Z * Z) (st : State) : outcome State :=
  let '(s, i, j) := sij in
  let ip := GetPatchId d [i; j] in
  let Dofs := Dof2GlobalDof d ip in
  let res_local := local_residual d l ip st in
  let st := log (EvVisit l ip) st in
  if (Norml2 res_local <? threshold)%float then Done st else
  let sol_local := PmlMatInv d ip res_local in
  let st := log (EvSolve l ip) st in
  st <-- TransferSources d l ip sol_local st ;;
  let cfsol_local := windowed_solution d ip i j sol_local in
  let znew := Vec.fill0 (z st) in
  let znew := SetSubVector znew Dofs cfsol_local in
  Done (log (EvCorrect l ip) (set_z (Vec.add (z st) znew) st)).

(** The first two loops of [Mult]: every buffer is zeroed, then the input
    residual is gathered into [f_orig]. *)
Definition reset_buffers (d : DST) (st : State) : State :=
  foldl (fun st ip =>
           let st := set_f_orig (alter_at Vec.fill0 ip (f_orig st)) st in
           foldl (fun st i =>
                    set_f_transf (alter_at (alter_at Vec.fill0 i) ip (f_transf st)) st)
                 st (range (nsweeps d)))
        st (range (nrpatch d)).

Definition scatter_source (d : DST) (r : Vector) (st : State) : State :=
  foldl (fun st ip =>
           set_f_orig
             (alter_at (fun _ => GetSubVector r (Dof2GlobalDof d ip)) ip (f_orig st)) st)
        st (range (nrpatch d)).

(** One sweep: all fronts in order. *)
Definition sweep (d : DST) (l : Z) (st : State) : outcome State :=
  forM (visit_patch d l) (sweep_order l (nxyz d 0) (nxyz d 1)) st.

(** Lines 74-93 of [Mult]: reset, scatter, [z = 0.0]; the ghost trace of
    the application starts empty. *)
Definition Mult_prologue (d : DST) (r : Vector) (st : State) : State :=
  let st := reset_buffers d st in
  let st := scatter_source d r st in
  let st := set_z (Vec.fill0 (z st)) st in
  {| f_orig := f_orig st; f_transf := f_transf st; z := z st; trace := [] |}.

(** [void DST::Mult(const Vector &r, Vector &z) const]; the incoming [z] and
    the buffers left by earlier calls are in [st].  The sweep loop is
    [for (int l=0; l<1; l++)]. *)
Definition Mult (d : DST) (r : Vector) (st : State) : outcome State :=
  forM (sweep d) (range 1) (Mult_prologue d r st).

End WithNorm.

(** ** A concrete 2 x 2 instance

    Four patches numbered [i + 2*j], one true degree of freedom per patch
    (a local vector has a real and an imaginary entry), all patches sharing
    the two global entries; identity local operators; a cutoff coefficient
    that halves the solution whenever a cut is requested. *)

Definition toy : DST := {|
  dim := 2;
  nrlayers := 2;
  nxyz := fun c => match c with 0 => 2 | 1 => 2 | _ => 1 end;
  nrpatch := 4;
  subdomains := fun i j k => i + 2 * j;
  gTrueVSize := 1;
  TrueVSize := fun _ => 1;
  Dof2GlobalDof := fun _ => [0%nat; 1%nat];
  PmlMat := fun _ v => v;
  PmlMatInv := fun _ v => v;
  mesh_h := fun _ => 1%float;
  CutOffFncn := fun _ _ pmlh _ =>
    match pmlh with
    | ((x0, x1), (y0, y1)) =>
        if ((x0 + x1 + y0 + y1) =? 0)%float then 1%float else 0.5%float
    end
|}.

(** The Euclidean norm, for the concrete instance. *)
Definition toy_norm (v : Vector) : float :=
  PrimFloat.sqrt (foldl (fun a x => (a + x * x)%float) 0%float v).

(** The state the constructor leaves: [nrpatch] original-source buffers and
    [nrpatch x nsweeps] transfer buffers of two entries each. *)
Definition toy_state (fill : float) : State := {|
  f_orig := replicate 4 [fill; fill];
  f_transf := replicate 4 (replicate 4 [fill; fill]);
  z := [fill; fill];
  trace := []
|}.

(** ** [DST::DST] *)

(** What the constructor reads of [povlp] and of [ovlp_prob]. *)
Record MeshPartition : Type := {
  mp_nxyz : Z -> Z;
  mp_nrpatch : Z;
  mp_subdomains : Z -> Z -> Z -> Z;
  mp_h : Z -> float                      (* element size of patch_mesh[ip] *)
}.

Record DofMap : Type := {
  dm_TrueVSize : Z -> Z;
  dm_Dof2GlobalDof : Z -> list nat
}.

(** A [Coefficient] maps a point to a value. *)
Definition Coefficient : Type := Vector -> float.

(** What the constructor learns from [bf_], and the services it calls. *)
Record Services : Type := {
  mesh_Dimension : Z;                    (* bf->FESpace()->GetMesh()->Dimension() *)
  bf_TrueVSize : Z;                      (* bf->FESpace()->GetTrueVSize() *)
  new_MeshPartition : Z -> Z -> Z -> Z -> Z -> MeshPartition;
    (* new MeshPartition(mesh, partition_kind, nx, ny, nz, nrlayers) *)
  new_DofMap : MeshPartition -> DofMap;  (* new DofMap(bf, povlp) *)
  SystemMatrix : MeshPartition -> DofMap -> float -> Coefficient -> Z -> Z -> Vector -> Vector;
    (* the matrix assembled by GetPmlSystemMatrix(ip), as an operator *)
  KLU : (Vector -> Vector) -> Vector -> Vector;
    (* KLUSolver::SetOperator followed by KLUSolver::Mult *)
  cutoff_of : MeshPartition -> bool -> Z -> Pmlh -> nat -> float;
  fresh : float                          (* what [new Vector(n)] happens to hold *)
}.

(** The constructor: the partition is requested with [partition_kind = 2],
    [nx = 2], [ny = 2], [nz = 1] and the caller's [nrlayers_]. *)
Definition DST_new (sv : Services) (Pmllength_ : Z -> Z -> float) (omega_ : float)
    (ws_ : Coefficient) (nrlayers_ : Z) : DST * State :=
  let partition_kind := 2 in
  let nx := 2 in
  let ny := 2 in
  let nz := 1 in
  let povlp := new_MeshPartition sv partition_kind nx ny nz nrlayers_ in
  let ovlp_prob := new_DofMap sv povlp in
  let PmlMat_ := SystemMatrix sv povlp ovlp_prob omega_ ws_ nrlayers_ in
  let d := {|
    dim := mesh_Dimension sv;
    nrlayers := nrlayers_;
    nxyz := mp_nxyz povlp;
    nrpatch := mp_nrpatch povlp;
    subdomains := mp_subdomains povlp;
    gTrueVSize := bf_TrueVSize sv;
    TrueVSize := dm_TrueVSize ovlp_prob;
    Dof2GlobalDof := dm_Dof2GlobalDof ovlp_prob;
    PmlMat := PmlMat_;
    PmlMatInv := fun ip => KLU sv (PmlMat_ ip);
    mesh_h := mp_h povlp;
    CutOffFncn := cutoff_of sv povlp
  |} in
  let n ip := Z.to_nat (2 * dm_TrueVSize ovlp_prob ip) in
  (d,
   {| f_orig := (fun ip => Vec.zero (n ip)) <$> range (nrpatch d);
      f_transf := (fun ip => (fun _ => replicate (n ip) (fresh sv)) <$> range (nsweeps d))
                    <$> range (nrpatch d);
      z := [];
      trace := [] |}).

(** ** Notions used in the statements *)

(** Section 4.1: the partitioner returns the grid it was asked for. *)
Definition honours_request (sv : Services) : Prop :=
  forall kind nx ny nz nl,
    let p := new_MeshPartition sv kind nx ny nz nl in
    mp_nxyz p 0 = nx /\ mp_nxyz p 1 = ny /\ mp_nxyz p 2 = nz /\
    mp_nrpatch p = nx * ny * nz.

(** The buffers in the shape the constructor gives them: [nrpatch] original
    sources, [nrpatch] rows of [nsweeps] transfer buffers. *)
Definition constructed_shape (d : DST) (st : State) : Prop :=
  length (f_orig st) = Z.to_nat (nrpatch d) /\
  length (f_transf st) = Z.to_nat (nrpatch d) /\
  Forall (fun row => length row = Z.to_nat (nsweeps d)) (f_transf st).

(** The sizes [MFEM_VERIFY] compares in [TransferSources]: every transfer
    buffer of a patch of the grid has as many entries as the patch's index
    list. *)
Definition buffers_fit (d : DST) (st : State) : Prop :=
  forall i j l, 0 <= i < nxyz d 0 -> 0 <= j < nxyz d 1 -> 0 <= l < nsweeps d ->
    length (transf_at st (GetPatchId d [i; j]) l)
    = length (Dof2GlobalDof d (GetPatchId d [i; j])).

(** What survives of a state from one application to the next: the sizes of
    the arrays and of the vectors in them. *)
Definition shape (st : State) : nat * list (list nat) * nat :=
  (length (f_orig st), (fun row : list Vector => length <$> row) <$> f_transf st,
   length (z st)).

(** Rule 1: the transfer direction [(i,j)] has a strictly positive dot
    product with the sign vector of sweep [l]. *)
Definition aligned (l i j : Z) : bool := 0 <? sweeps l 0 * i + sweeps l 1 * j.

(** The sign vector of [l'] is the exact negation of that of [l]. *)
Definition opposite (l l' : Z) : bool :=
  (sweeps l' 0 =? - sweeps l 0) && (sweeps l' 1 =? - sweeps l 1).

(** Rule 2 as section 4.5 words it: a purely horizontal or vertical transfer
    computed in sweep [l] is not delivered to the sweep opposite to [l]. *)
Definition no_reversal (l l' i j : Z) : bool :=
  negb (((i =? 0) || (j =? 0)) && opposite l l').

(** The destination section 4.5 asks for: the first sweep of the scan that
    satisfies both rules. *)
Definition spec_destination (l i j : Z) (ls : list Z) : option Z :=
  List.find (fun l' => aligned l' i j && no_reversal l l' i j) ls.

(** The first sweep of the scan that satisfies Rule 1. *)
Definition first_aligned (i j : Z) (ls : list Z) : option Z :=
  List.find (fun l' => aligned l' i j) ls.

(** [*f_transf[ip1][l] += res1], with its ghost event. *)
Definition accumulate (sweep ip0 ip1 l : Z) (res1 : Vector) (st : State) : State :=
  log (EvTransfer sweep ip0 ip1 l)
    (set_f_transf
       (alter_at (alter_at (fun v => Vec.add v res1) l) ip1 (f_transf st)) st).

(** The eight transfer directions. *)
Definition direction (i j : Z) : Prop :=
  -1 <= i <= 1 /\ -1 <= j <= 1 /\ (i, j) <> (0, 0).

(** Program order inside one sweep: earlier front first, then smaller [i]. *)
Definition earlier (t t' : Z * Z * Z) : Prop :=
  t.1.1 < t'.1.1 \/ (t.1.1 = t'.1.1 /\ t.1.2 < t'.1.2).

(** [x] is reached strictly before [y]. *)
Definition precedes {A} (x y : A) (xs : list A) : Prop :=
  exists l1 l2 l3, xs = l1 ++ x :: l2 ++ y :: l3.

(** The sweep in which an event happens. *)
Definition ev_sweep (e : Event) : Z :=
  match e with
  | EvVisit l _ | EvSolve l _ | EvTransfer l _ _ _ | EvCorrect l _ => l
  end.

(** Everything recorded so far happened in sweep [l]. *)
Definition in_sweep (l : Z) (st : State) : Prop :=
  Forall (fun e => ev_sweep e = l) (trace st).

(** The patch ids of the visits recorded in a trace, in program order. *)
Definition visits (tr : list Event) : list Z :=
  omap (fun e => match e with EvVisit _ ip => Some ip | _ => None end) tr.

(** Every entry is [+0.0]. *)
Definition allzero (v : Vector) : Prop := Forall (fun x => x = 0%float) v.

(** No buffer holds a non-zero entry. *)
Definition quiet (st : State) : Prop :=
  Forall allzero (f_orig st) /\ Forall (Forall allzero) (f_transf st).

(** ** Further concrete instances *)

(** A partitioner that numbers the patches of the requested grid row by row. *)
Definition grid_services : Services := {|
  mesh_Dimension := 2;
  bf_TrueVSize := 1;
  new_MeshPartition := fun kind nx ny nz nl =>
    {| mp_nxyz := fun c => match c with 0 => nx | 1 => ny | _ => nz end;
       mp_nrpatch := nx * ny * nz;
       mp_subdomains := fun i j k => i + nx * j + nx * ny * k;
       mp_h := fun _ => 1%float |};
  new_DofMap := fun _ =>
    {| dm_TrueVSize := fun _ => 1; dm_Dof2GlobalDof := fun _ => [0%nat; 1%nat] |};
  SystemMatrix := fun _ _ _ _ _ _ v => v;
  KLU := fun A v => v;
  cutoff_of := fun _ => CutOffFncn toy;
  fresh := 7%float
|}.

(** The 2 x 2 instance with a defective DOF map: the index list of patch 1
    has one entry, while its buffers have two. *)
Definition skewed : DST := {|
  dim := dim toy;
  nrlayers := nrlayers toy;
  nxyz := nxyz toy;
  nrpatch := nrpatch toy;
  subdomains := subdomains toy;
  gTrueVSize := gTrueVSize toy;
  TrueVSize := TrueVSize toy;
  Dof2GlobalDof := fun ip => if ip =? 1 then [0%nat] else [0%nat; 1%nat];
  PmlMat := PmlMat toy;
  PmlMatInv := PmlMatInv toy;
  mesh_h := mesh_h toy;
  CutOffFncn := CutOffFncn toy
|}.

(** ** Notions used in the further properties *)

(** The numbering [Getijk] inverts: patches row by row, plane by plane. *)
Definition row_major (d : DST) (i j k : Z) : Z :=
  i + nxyz d 0 * j + nxyz d 0 * nxyz d 1 * k.

(** The front on which sweep [l] reaches the patch [(i,j)]: the [s] for which
    the [switch] of [Mult] yields [j]. *)
Definition front_of (l nx ny i j : Z) : Z :=
  match l with
  | 0 => i + j
  | 1 => j + nx - 1 - i
  | 2 => nx - 1 + i - j
  | _ => nx + ny - 2 - i - j
  end.

(** [(i',j')] lies upstream of [(i,j)] for the sign vector of sweep [l]. *)
Definition upstream (l i' j' i j : Z) : Prop :=
  0 <= sweeps l 0 * (i - i') /\ 0 <= sweeps l 1 * (j - j') /\ (i', j') <> (i, j).

(** The offsets [TransferSources] loops over, in loop order. *)
Definition offsets9 : list (Z * Z) :=
  [(-1, -1); (-1, 0); (-1, 1)] ++ [(0, -1); (0, 0); (0, 1)] ++ [(1, -1); (1, 0); (1, 1)].

(** The delivery [TransferSources] makes for the offset [(i,j)] from patch
    [ip0] in sweep [sweep], if any: none outside the grid, none for the
    patch itself, none when no sweep of the scan is aligned. *)
Definition delivery_event (d : DST) (sweep ip0 : Z) (ij : Z * Z) : option Event :=
  let i := ij.1 in
  let j := ij.2 in
  let i1 := (Getijk d ip0).1.1 + i in
  let j1 := (Getijk d ip0).1.2 + j in
  if (i1 <? 0) || (i1 >=? nxyz d 0) then None
  else if (i =? 0) && (j =? 0) then None
  else if (j1 <? 0) || (j1 >=? nxyz d 1) then None
  else l' ← first_aligned i j (sweeps_from d sweep);
       Some (EvTransfer sweep ip0 (GetPatchId d [i1; j1]) l').

(** The 2 x 2 instance inside a global space of two true degrees of
    freedom, of which the patches hold the first: a global vector is
    [re0; re1; im0; im1], every patch owns [re0] and [im0], and the entries
    1 and 3 belong to no patch.  All sizes agree: four global entries, two
    entries per patch buffer and per index list. *)
Definition gapped : DST := {|
  dim := dim toy;
  nrlayers := nrlayers toy;
  nxyz := nxyz toy;
  nrpatch := nrpatch toy;
  subdomains := subdomains toy;
  gTrueVSize := 2;
  TrueVSize := TrueVSize toy;
  Dof2GlobalDof := fun _ => [0%nat; 2%nat];
  PmlMat := PmlMat toy;
  PmlMatInv := PmlMatInv toy;
  mesh_h := mesh_h toy;
  CutOffFncn := CutOffFncn toy
|}.

Definition gapped_residual : Vector := [1; 2; 3; 4]%float.

(** The buffers of [toy_state] with an output vector of four entries. *)
Definition gapped_state : State := set_z [7; 7; 7; 7]%float (toy_state 7).

(** ** Device configuration (general/device.cpp) *)

Module Dev.

#[local] Open Scope nat_scope.

Notation "a +:+ b" := (String.append a b) (at level 60, right associativity).

(** [Backend::Id], as far as device.cpp names its values. *)
Inductive Backend : Type :=
| CPU | OMP | CUDA
| RAJA_CPU | RAJA_OMP | RAJA_CUDA
| OCCA_CPU | OCCA_OMP | OCCA_CUDA
| CEED_CPU | CEED_CUDA.

(** Backends listed by priority, high to low. *)
Definition backend_list : list Backend :=
  [OCCA_CUDA; RAJA_CUDA; CEED_CUDA; CUDA; OCCA_OMP; RAJA_OMP; OMP;
   OCCA_CPU; RAJA_CPU; CEED_CPU; CPU].

(** Backend names listed by priority, high to low. *)
Definition backend_name : list string :=
  ["occa-cuda"; "raja-cuda"; "ceed-cuda"; "cuda"; "occa-omp"; "raja-omp"; "omp";
   "occa-cpu"; "raja-cpu"; "ceed-cpu"; "cpu"]%string.

(** The two tables side by side: entry [i] of each. *)
Definition backend_rows : list (Backend * string) := zip backend_list backend_name.

(** [bmap], filled by [bmap[backend_name[i]] = backend_list[i]]; the names
    are pairwise distinct, so no assignment overwrites another. *)
Definition bmap : list (string * Backend) := zip backend_name backend_list.

(** [bmap.find(name)]: [None] stands for [bmap.end()]. *)
Definition bmap_find (name : string) : option Backend :=
  snd <$> List.find (fun kv => String.eqb (fst kv) name) bmap.

(** [s.find(c, pos)]: the first index at or after [pos] that holds [c];
    [None] stands for [npos]. *)
Fixpoint find_char (c : Ascii.ascii) (s : string) (pos : nat) : option nat :=
  match s with
  | EmptyString => None
  | String a s' =>
      match pos with
      | O => if Ascii.eqb a c then Some O else S <$> find_char c s' O
      | S p => S <$> find_char c s' p
      end
  end.

(** [s.substr(pos)]: from [pos] to the end. *)
Definition substr_from (pos : nat) (s : string) : string :=
  substring pos (String.length s - pos) s.

(** What the parsing loop of [Configure] does to the device: the backends
    handed to [MarkBackend], in call order; [ceed_option]; the lines
    written to [std::cout]. *)
Record Marks : Type := {
  marked : list Backend;
  ceed_option : option string;
  cout : list string
}.

Definition MarkBackend (b : Backend) (m : Marks) : Marks :=
  {| marked := marked m ++ [b]; ceed_option := ceed_option m; cout := cout m |}.

Definition set_ceed_option (o : string) (m : Marks) : Marks :=
  {| marked := marked m; ceed_option := Some o; cout := cout m |}.

Definition print_line (line : string) (m : Marks) : Marks :=
  {| marked := marked m; ceed_option := ceed_option m; cout := cout m ++ [line] |}.

(** The message of [MFEM_VERIFY(it != bmap.end(), ...)]. *)
Definition invalid_name (backend : string) : string :=
  "invalid backend name: '"%string +:+ backend +:+ "'"%string.

(** The body of the loop, lines 80-97, for one item [bname]. *)
Definition configure_item (bname : string) (m : Marks) : outcome Marks :=
  match find_char ":"%char bname 0 with
  | None =>
      let backend := bname in
      match bmap_find backend with
      | None => Aborted (invalid_name backend)
      | Some b => Done (MarkBackend b m)
      end
  | Some option =>
      let backend := substring 0 option bname in
      let boption := substr_from (option + 1) bname in
      let m := set_ceed_option boption m in
      match bmap_find backend with
      | None => Aborted (invalid_name backend)
      | Some b => Done (print_line ("libCEED backend: "%string +:+ boption) (MarkBackend b m))
      end
  end.

(** The loop [while (1)] of lines 75-100, started at [beg]; [None] when
    [fuel] iterations do not reach the [break]. *)
Fixpoint configure_loop (fuel : nat) (device : string) (beg : nat) (m : Marks)
    : option (outcome Marks) :=
  match fuel with
  | O => None
  | S fuel' =>
      let end_ := default (String.length device) (find_char ","%char device beg) in
      let bname := substring beg (end_ - beg) device in
      match configure_item bname m with
      | Aborted msg => Some (Aborted msg)
      | Done m' =>
          if Nat.eqb end_ (String.length device) then Some (Done m')
          else configure_loop fuel' device (end_ + 1) m'
      end
  end.

(** Lines 69-100 of [Device::Configure]. *)
Definition Configure_backends (device : string) (m : Marks) : option (outcome Marks) :=
  configure_loop (S (String.length device)) device 0 m.

(** [Device::Print]: the loop of lines 128-137 and the whole line.  [bit]
    gives the value of each [Backend::Id], declared outside device.cpp. *)
Definition Print_names (bit : Backend -> Z) (backends : Z) : string :=
  fst (foldl (fun (acc : string * bool) (row : Backend * string) =>
                if negb (Z.eqb (Z.land backends (bit (fst row))) 0)
                then ((fst acc +:+ (if snd acc then ","%string else EmptyString)) +:+ snd row, true)
                else acc)
             (EmptyString, false) backend_rows).

Definition Print (bit : Backend -> Z) (backends : Z) : string :=
  "Device configuration: "%string +:+ Print_names bit backends +:+ String (Ascii.ascii_of_nat 10) EmptyString.

(** The items of a device string: the texts between its commas. *)
Fixpoint split_comma (s : string) : list string :=
  match s with
  | EmptyString => [EmptyString]
  | String a s' =>
      if Ascii.eqb a ","%char then EmptyString :: split_comma s'
      else match split_comma s' with
           | [] => [String a EmptyString]
           | x :: xs => String a x :: xs
           end
  end.

(** The backend part and the option part of an item. *)
Definition item_backend (bname : string) : string :=
  match find_char ":"%char bname 0 with
  | None => bname
  | Some option => substring 0 option bname
  end.

Definition item_option (bname : string) : option string :=
  (fun option => substr_from (option + 1) bname) <$> find_char ":"%char bname 0.

(** The last option among the items, or the one set before. *)
Definition last_option (items : list string) (before : option string) : option string :=
  foldl (fun o it => match item_option it with Some x => Some x | None => o end)
        before items.

(** The rows of the tables whose bit is set in [backends]. *)
Definition selected (bit : Backend -> Z) (backends : Z) : list (Backend * string) :=
  filter (fun row => Z.land backends (bit (fst row)) <> 0%Z) backend_rows.

Definition nonempty {A} (l : list A) : bool :=
  match l with [] => false | _ => true end.

(** Bits for an example; the values of [Backend::Id] are declared outside
    device.cpp and the properties below hold for any. *)
Definition example_bit (b : Backend) : Z :=
  match b with CPU => 1 | OMP => 2 | CUDA => 4 | _ => 0 end.

End Dev.

(** ** Kernel selection of the mass integrator (fem/bilininteg_mass_pa.cpp) *)

Module MassPA.

#[local] Open Scope Z_scope.

(** The kernels the two dispatch functions hand the work to, with their
    template arguments (specialised kernels) or the sizes they are passed
    at run time (generic and OCCA kernels). *)
Inductive Kernel : Type :=
| SmemPAMassAssembleDiagonal2D (T_D1D T_Q1D T_NBZ : Z)
| PAMassAssembleDiagonal2D (D1D Q1D : Z)
| SmemPAMassAssembleDiagonal3D (T_D1D T_Q1D : Z)
| PAMassAssembleDiagonal3D (D1D Q1D : Z)
| OccaPAMassApply2D (D1D Q1D : Z)
| OccaPAMassApply3D (D1D Q1D : Z)
| SmemPAMassApply2D (T_D1D T_Q1D T_NBZ : Z)
| PAMassApply2D (D1D Q1D : Z)
| RajaSmemPAMassApply3D (T_D1D T_Q1D : Z)
| SmemPAMassApply3D (T_D1D T_Q1D : Z)
| PAMassApply3D (D1D Q1D : Z).

(** [(D1D << 4) | Q1D]. *)
Definition kernel_id (D1D Q1D : Z) : Z := Z.lor (Z.shiftl D1D 4) Q1D.

(** [switch (id) { case k: return v; ... default: return d; }] with
    pairwise distinct labels. *)
Definition switch {A} (id : Z) (cases : list (Z * A)) (default : A) : A :=
  match List.find (fun kv => Z.eqb (fst kv) id) cases with
  | Some kv => snd kv
  | None => default
  end.

Definition AssembleDiagonal2D_cases : list (Z * Kernel) :=
  [(0x22, SmemPAMassAssembleDiagonal2D 2 2 16);
   (0x33, SmemPAMassAssembleDiagonal2D 3 3 16);
   (0x44, SmemPAMassAssembleDiagonal2D 4 4 8);
   (0x55, SmemPAMassAssembleDiagonal2D 5 5 8);
   (0x66, SmemPAMassAssembleDiagonal2D 6 6 4);
   (0x77, SmemPAMassAssembleDiagonal2D 7 7 4);
   (0x88, SmemPAMassAssembleDiagonal2D 8 8 2);
   (0x99, SmemPAMassAssembleDiagonal2D 9 9 2)].

Definition AssembleDiagonal3D_cases : list (Z * Kernel) :=
  [(0x23, SmemPAMassAssembleDiagonal3D 2 3);
   (0x34, SmemPAMassAssembleDiagonal3D 3 4);
   (0x45, SmemPAMassAssembleDiagonal3D 4 5);
   (0x56, SmemPAMassAssembleDiagonal3D 5 6);
   (0x67, SmemPAMassAssembleDiagonal3D 6 7);
   (0x78, SmemPAMassAssembleDiagonal3D 7 8);
   (0x89, SmemPAMassAssembleDiagonal3D 8 9)].

(** [PAMassAssembleDiagonal], lines 418-454: the kernel that is run. *)
Definition PAMassAssembleDiagonal (dim D1D Q1D : Z) : outcome Kernel :=
  if dim =? 2 then
    Done (switch (kernel_id D1D Q1D) AssembleDiagonal2D_cases
            (PAMassAssembleDiagonal2D D1D Q1D))
  else if dim =? 3 then
    Done (switch (kernel_id D1D Q1D) AssembleDiagonal3D_cases
            (PAMassAssembleDiagonal3D D1D Q1D))
  else Aborted "Unknown kernel.".

Definition Apply2D_cases : list (Z * Kernel) :=
  [(0x22, SmemPAMassApply2D 2 2 16);
   (0x24, SmemPAMassApply2D 2 4 16);
   (0x33, SmemPAMassApply2D 3 3 16);
   (0x34, SmemPAMassApply2D 3 4 16);
   (0x36, SmemPAMassApply2D 3 6 16);
   (0x44, SmemPAMassApply2D 4 4 8);
   (0x48, SmemPAMassApply2D 4 8 4);
   (0x55, SmemPAMassApply2D 5 5 8);
   (0x58, SmemPAMassApply2D 5 8 2);
   (0x66, SmemPAMassApply2D 6 6 4);
   (0x77, SmemPAMassApply2D 7 7 4);
   (0x88, SmemPAMassApply2D 8 8 2);
   (0x99, SmemPAMassApply2D 9 9 2)].

(** The thirteen labels of both 3D switches, with the template arguments
    of their case. *)
Definition Apply3D_labels : list (Z * (Z * Z)) :=
  [(0x23, (2, 3)); (0x24, (2, 4)); (0x34, (3, 4)); (0x36, (3, 6));
   (0x45, (4, 5)); (0x46, (4, 6)); (0x48, (4, 8)); (0x56, (5, 6));
   (0x58, (5, 8)); (0x67, (6, 7)); (0x78, (7, 8)); (0x89, (8, 9));
   (0x9A, (9, 10))].

Definition Apply3D_cases (kernel : Z -> Z -> Kernel) : list (Z * Kernel) :=
  (fun c => (fst c, kernel (fst (snd c)) (snd (snd c)))) <$> Apply3D_labels.

(** [PAMassApply], lines 1578-1691.  [occa] stands for MFEM_USE_OCCA
    being defined and [DeviceCanUseOcca()] holding; [allows_other] for the
    condition of lines 1643-1644,
    [Device::Allows(Backend::CUDA_MASK & ~Backend::CUDA) ||
     Device::Allows(Backend::CPU_MASK & ~Backend::CPU)],
    whose masks are declared outside this file: it is a flag of the device
    configuration, not the name of one backend.  The line written to
    [mfem::out] before the last abort is left out. *)
Definition PAMassApply (occa allows_other : bool) (dim D1D Q1D : Z) : outcome Kernel :=
  if occa then
    if dim =? 2 then Done (OccaPAMassApply2D D1D Q1D)
    else if dim =? 3 then Done (OccaPAMassApply3D D1D Q1D)
    else Aborted "OCCA PA Mass Apply unknown kernel!"
  else
    let id := kernel_id D1D Q1D in
    if dim =? 2 then
      Done (switch id Apply2D_cases (PAMassApply2D D1D Q1D))
    else if dim =? 3 then
      if allows_other then
        switch id ((fun c => (fst c, Done (snd c))) <$> Apply3D_cases RajaSmemPAMassApply3D)
          (Aborted (String.append "RAJA case not supported " (String (Ascii.ascii_of_nat 10) EmptyString)))
      else
        Done (switch id (Apply3D_cases SmemPAMassApply3D) (PAMassApply3D D1D Q1D))
    else Aborted "Unknown kernel.".

(** The dimension a kernel is written for, and the sizes it works with:
    its template arguments, or the run-time sizes it is passed. *)
Definition kernel_dim (k : Kernel) : Z :=
  match k with
  | SmemPAMassAssembleDiagonal2D _ _ _ | PAMassAssembleDiagonal2D _ _
  | OccaPAMassApply2D _ _ | SmemPAMassApply2D _ _ _ | PAMassApply2D _ _ => 2
  | _ => 3
  end.

Definition kernel_sizes (k : Kernel) : Z * Z :=
  match k with
  | SmemPAMassAssembleDiagonal2D d q _ | PAMassAssembleDiagonal2D d q
  | SmemPAMassAssembleDiagonal3D d q | PAMassAssembleDiagonal3D d q
  | OccaPAMassApply2D d q | OccaPAMassApply3D d q
  | SmemPAMassApply2D d q _ | PAMassApply2D d q
  | RajaSmemPAMassApply3D d q | SmemPAMassApply3D d q | PAMassApply3D d q => (d, q)
  end.

(** Kernels compiled for fixed sizes. *)
Definition specialised (k : Kernel) : bool :=
  match k with
  | SmemPAMassAssembleDiagonal2D _ _ _ | SmemPAMassAssembleDiagonal3D _ _
  | SmemPAMassApply2D _ _ _ | RajaSmemPAMassApply3D _ _ | SmemPAMassApply3D _ _ => true
  | _ => false
  end.

(** A table of cases is sound when every label is [(a << 4) | b] for the
    template arguments [a], [b] of its kernel, with [b] below 16. *)
Definition sound_cases (dim : Z) (cases : list (Z * Kernel)) : Prop :=
  Forall (fun c => fst c = 16 * fst (kernel_sizes (snd c)) + snd (kernel_sizes (snd c)) /\
                   0 <= snd (kernel_sizes (snd c)) < 16 /\
                   kernel_dim (snd c) = dim /\
                   specialised (snd c) = true) cases.

End MassPA.

(** * Properties *)

(** ** Arrays and loops *)

Lemma at_alter_at_eq {A} (f : A -> A) (i : Z) (xs : list A) :
  at_ (alter_at f i xs) i = f <$> at_ xs i.
Proof.
  unfold at_, alter_at. destruct (i <? 0); [reflexivity|].
  apply list_lookup_alter_eq.
Qed.

Lemma at_alter_at_ne {A} (f : A -> A) (i j : Z) (xs : list A) :
  i <> j -> at_ (alter_at f i xs) j = at_ xs j.
Proof.
  unfold at_, alter_at. intros Hne.
  destruct (j <? 0) eqn:Hj; [reflexivity|].
  destruct (i <? 0) eqn:Hi; [reflexivity|].
  apply list_lookup_alter_ne. apply Z.ltb_ge in Hi, Hj. lia.
Qed.

Lemma length_alter_at {A} (f : A -> A) (i : Z) (xs : list A) :
  length (alter_at f i xs) = length xs.
Proof. unfold alter_at. destruct (i <? 0); [reflexivity|]. apply length_alter. Qed.

Lemma alter_at_compose {A} (f g : A -> A) (i : Z) (xs : list A) :
  alter_at f i (alter_at g i xs) = alter_at (f ∘ g) i xs.
Proof.
  unfold alter_at. destruct (i <? 0); [reflexivity|].
  apply list_eq. intros k. rewrite !list_lookup_alter.
  repeat case_decide; try reflexivity; try congruence.
  destruct (xs !! Z.to_nat i); reflexivity.
Qed.

Lemma alter_at_same {A} (i : Z) (xs : list A) : alter_at (fun x => x) i xs = xs.
Proof.
  unfold alter_at. destruct (i <? 0); [reflexivity|].
  apply list_alter_id. reflexivity.
Qed.

Lemma fmap_alter_at_stable {A B} (f : A -> B) (g : A -> A) (i : Z) (xs : list A) :
  (forall x, f (g x) = f x) -> f <$> alter_at g i xs = f <$> xs.
Proof.
  intros Hfg. unfold alter_at. destruct (i <? 0); [reflexivity|].
  apply list_eq. intros k. rewrite !list_lookup_fmap, list_lookup_alter.
  case_decide; [subst k|reflexivity].
  destruct (xs !! Z.to_nat i); simpl; [|reflexivity]. now rewrite Hfg.
Qed.

Lemma length_add (a b : Vector) : length (Vec.add a b) = length a.
Proof.
  revert b. induction a as [|x a IH]; intros [|y b]; simpl; try reflexivity.
  now rewrite IH.
Qed.

Lemma imap_same {A} (xs : list A) : imap (fun _ x => x) xs = xs.
Proof.
  apply list_eq. intros k. rewrite list_lookup_imap.
  destruct (xs !! k); reflexivity.
Qed.

Lemma imap_by_length {A B} (G : nat -> B) (xs ys : list A) :
  length xs = length ys -> imap (fun k _ => G k) xs = imap (fun k _ => G k) ys.
Proof.
  intros Hlen. apply list_eq. intros k. rewrite !list_lookup_imap.
  destruct (xs !! k) as [x|] eqn:Hx; destruct (ys !! k) as [y|] eqn:Hy; try reflexivity.
  - apply lookup_lt_Some in Hx. apply lookup_ge_None in Hy. lia.
  - apply lookup_lt_Some in Hy. apply lookup_ge_None in Hx. lia.
Qed.

(** A loop [for (i = 0; i < n; i++) xs[i] = G(i, xs[i])] in closed form. *)
Lemma foldl_alter_range {A} (G : Z -> A -> A) (n : nat) (xs : list A) :
  foldl (fun acc i => alter_at (G i) i acc) xs (Z.of_nat <$> seq 0 n) =
  imap (fun k x => if decide (k < n)%nat then G (Z.of_nat k) x else x) xs.
Proof.
  induction n as [|n IH].
  - simpl. symmetry. apply imap_same.
  - rewrite seq_S, fmap_app, foldl_app, IH. simpl.
    unfold alter_at.
    assert ((Z.of_nat n <? 0) = false) as -> by (apply Z.ltb_ge; lia).
    rewrite Nat2Z.id.
    apply list_eq. intros k.
    rewrite list_lookup_alter, !list_lookup_imap.
    destruct (decide (n = k)) as [->|Hne]; destruct (xs !! k) as [x|]; simpl;
      repeat case_decide; try reflexivity; lia.
Qed.

Lemma foldl_alter_inner {A} (f : Z -> A -> A) (ip : Z) (is_ : list Z) (xss : list (list A)) :
  foldl (fun acc i => alter_at (alter_at (f i) i) ip acc) xss is_ =
  alter_at (fun row => foldl (fun acc i => alter_at (f i) i acc) row is_) ip xss.
Proof.
  revert xss. induction is_ as [|i is_ IH]; intros xss; simpl.
  - symmetry. apply alter_at_same.
  - rewrite IH, alter_at_compose. reflexivity.
Qed.

Lemma forM_invariant {A S} (I : S -> Prop) (body : A -> S -> outcome S) xs :
  (forall x s s', I s -> body x s = Done s' -> I s') ->
  forall s s', I s -> forM body xs s = Done s' -> I s'.
Proof.
  intros Hbody. induction xs as [|x xs IH]; intros s s' Hs; simpl.
  - intros [= <-]. exact Hs.
  - destruct (body x s) as [s1|msg] eqn:Hx; simpl; [|discriminate].
    apply IH. eapply Hbody; eassumption.
Qed.

Lemma forM_app {A S} (body : A -> S -> outcome S) xs ys s :
  forM body (xs ++ ys) s = (s' <-- forM body xs s ;; forM body ys s').
Proof.
  revert s. induction xs as [|x xs IH]; intros s; simpl; [reflexivity|].
  destruct (body x s); simpl; [apply IH|reflexivity].
Qed.

Lemma elem_of_range (n x : Z) : x ∈ range n <-> 0 <= x < n.
Proof.
  unfold range. rewrite list_elem_of_fmap. split.
  - intros (k & -> & Hk%elem_of_seq). lia.
  - intros Hx. exists (Z.to_nat x). split; [lia|]. apply elem_of_seq. lia.
Qed.

Lemma length_range n : length (range n) = Z.to_nat n.
Proof. unfold range. rewrite length_fmap, length_seq. reflexivity. Qed.

Lemma seq_increasing (a k : nat) : StronglySorted Z.lt (Z.of_nat <$> seq a k).
Proof.
  revert a. induction k as [|k IH]; intros a; simpl; constructor.
  - apply IH.
  - apply Forall_forall. intros x (m & -> & Hm%elem_of_seq)%list_elem_of_fmap. lia.
Qed.

Lemma range_increasing (n : Z) : StronglySorted Z.lt (range n).
Proof. apply seq_increasing. Qed.

(** ** The delivery scan of [TransferSources] *)

(** The test of lines 346-352 compares the candidate sweep with itself: once
    Rule 1 has passed it never fires. *)
Lemma self_comparison_never_skips (l i j : Z) :
  aligned l i j = true ->
  ((i =? 0) || (j =? 0)) && ((sweeps l 0 =? - sweeps l 0) && (sweeps l 1 =? - sweeps l 1))
  = false.
Proof.
  unfold aligned. intros Hpos%Z.ltb_lt.
  destruct (sweeps l 0 =? - sweeps l 0) eqn:E0;
    destruct (sweeps l 1 =? - sweeps l 1) eqn:E1;
    rewrite ?andb_false_r; try reflexivity.
  apply Z.eqb_eq in E0, E1. exfalso. nia.
Qed.

(** What the scan does: it looks for the first aligned sweep, checks the
    buffer size there, and accumulates. *)
Lemma deliver_first_aligned sweep ip0 ip1 i j res1 ls st :
  deliver sweep ip0 ip1 i j res1 ls st =
  match first_aligned i j ls with
  | None => Done st
  | Some l =>
      if Nat.eqb (length (transf_at st ip1 l)) (length res1)
      then Done (accumulate sweep ip0 ip1 l res1 st)
      else Aborted "Transfer Sources: inconsistent size"
  end.
Proof.
  unfold first_aligned. induction ls as [|l ls IH]; [reflexivity|].
  cbn [deliver List.find].
  destruct (aligned l i j) eqn:Hal.
  - assert (Hd : (sweeps l 0 * i + sweeps l 1 * j <=? 0) = false).
    { unfold aligned in Hal. apply Z.ltb_lt in Hal. apply Z.leb_gt. exact Hal. }
    rewrite Hd, (self_comparison_never_skips _ _ _ Hal). reflexivity.
  - assert (Hd : (sweeps l 0 * i + sweeps l 1 * j <=? 0) = true).
    { unfold aligned in Hal. apply Z.ltb_ge in Hal. apply Z.leb_le. exact Hal. }
    rewrite Hd. exact IH.
Qed.

(** In two dimensions the scan started in sweep [l] runs over [l .. 3]. *)
Lemma sweeps_from_2D d l :
  dim d = 2 -> 0 <= l <= 4 ->
  sweeps_from d l = List.filter (fun l' => l <=? l') [0; 1; 2; 3].
Proof.
  intros Hd Hl. unfold sweeps_from, nsweeps, range. rewrite Hd.
  assert (l = 0 \/ l = 1 \/ l = 2 \/ l = 3 \/ l = 4) as H by lia.
  destruct H as [->|[->|[->|[->| ->]]]]; reflexivity.
Qed.

(** When no sweep of the scan is aligned, nothing is delivered. *)
Lemma deliver_no_destination sweep ip0 ip1 i j res1 ls st :
  first_aligned i j ls = None ->
  deliver sweep ip0 ip1 i j res1 ls st = Done st.
Proof. intros H. rewrite deliver_first_aligned, H. reflexivity. Qed.

(** The accumulation adds [res1] into the one buffer [(ip1, l)] ... *)
Lemma transf_at_accumulate_same sweep ip0 ip1 l res1 st :
  transf_at (accumulate sweep ip0 ip1 l res1 st) ip1 l =
  Vec.add (transf_at st ip1 l) res1.
Proof.
  unfold transf_at, accumulate. simpl.
  rewrite at_alter_at_eq.
  destruct (at_ (f_transf st) ip1) as [row|]; simpl; [|reflexivity].
  rewrite at_alter_at_eq. destruct (at_ row l); reflexivity.
Qed.

(** ... and leaves every other buffer as it was. *)
Lemma transf_at_accumulate_other sweep ip0 ip1 l res1 st ip k :
  (ip, k) <> (ip1, l) ->
  transf_at (accumulate sweep ip0 ip1 l res1 st) ip k = transf_at st ip k.
Proof.
  intros Hne. unfold transf_at, accumulate. simpl.
  destruct (Z.eq_dec ip ip1) as [->|Hip].
  - rewrite at_alter_at_eq.
    destruct (at_ (f_transf st) ip1) as [row|]; simpl; [|reflexivity].
    rewrite at_alter_at_ne; [reflexivity|]. congruence.
  - rewrite at_alter_at_ne; [reflexivity|]. congruence.
Qed.

Lemma accumulate_keeps_sources sweep ip0 ip1 l res1 st :
  f_orig (accumulate sweep ip0 ip1 l res1 st) = f_orig st /\
  z (accumulate sweep ip0 ip1 l res1 st) = z st.
Proof. split; reflexivity. Qed.

(** The destination is the smallest aligned sweep of the scan. *)
Lemma first_aligned_smallest i j ls l :
  first_aligned i j ls = Some l ->
  exists l1 l2, ls = l1 ++ l :: l2 /\ aligned l i j = true /\
                Forall (fun k => aligned k i j = false) l1.
Proof.
  unfold first_aligned. induction ls as [|k ls IH]; simpl; [discriminate|].
  destruct (aligned k i j) eqn:Hk.
  - intros [= ->]. exists [], ls. repeat split; [exact Hk|constructor].
  - intros (l1 & l2 & -> & Hal & Hall)%IH.
    exists (k :: l1), l2. repeat split; [exact Hal|constructor; assumption].
Qed.

(** A finished delivery has added [res1] to one buffer, that of the first
    aligned sweep, and has changed no other; with no aligned sweep it has
    changed nothing. *)
Lemma deliver_accumulates_once sweep ip0 ip1 i j res1 ls st st' :
  deliver sweep ip0 ip1 i j res1 ls st = Done st' ->
  match first_aligned i j ls with
  | None => st' = st
  | Some l =>
      transf_at st' ip1 l = Vec.add (transf_at st ip1 l) res1 /\
      (forall ip k, (ip, k) <> (ip1, l) -> transf_at st' ip k = transf_at st ip k) /\
      f_orig st' = f_orig st /\ z st' = z st
  end.
Proof.
  rewrite deliver_first_aligned.
  destruct (first_aligned i j ls) as [l|]; [|intros [= <-]; reflexivity].
  destruct (Nat.eqb _ _); [|discriminate].
  intros [= <-]. split; [apply transf_at_accumulate_same|].
  split; [intros ip k; apply transf_at_accumulate_other|].
  apply accumulate_keeps_sources.
Qed.


(** ... which, for a horizontal or vertical transfer, is never the sweep
    opposite to sweep 0: when [TransferSources] is called for sweep 0, the
    only sweep [Mult] runs, Rule 2 holds although its test is dead. *)
Lemma sweep0_never_reversed i j l' :
  direction i j -> i = 0 \/ j = 0 ->
  first_aligned i j [0; 1; 2; 3] = Some l' -> opposite 0 l' = false.
Proof.
  intros (Hi & Hj & Hne) Hax.
  assert (i = -1 \/ i = 0 \/ i = 1) as [->|[->| ->]] by lia;
  assert (j = -1 \/ j = 0 \/ j = 1) as [->|[->| ->]] by lia;
  try (exfalso; lia); try congruence;
  vm_compute; intros [= <-]; reflexivity.
Qed.

(** The same agreement, for every destination: from sweep 0 the code and
    section 4.5 choose the same sweep. *)
Lemma sweep0_agrees_with_spec i j :
  direction i j ->
  first_aligned i j [0; 1; 2; 3] = spec_destination 0 i j [0; 1; 2; 3].
Proof.
  intros (Hi & Hj & Hne).
  assert (i = -1 \/ i = 0 \/ i = 1) as [->|[->| ->]] by lia;
  assert (j = -1 \/ j = 0 \/ j = 1) as [->|[->| ->]] by lia;
  reflexivity.
Qed.

(** The dead test would show only if [TransferSources] were called for
    sweep 1, which [Mult] never does: there the horizontal transfer [(1,0)]
    is scanned over sweeps 1, 2, 3 and lands in sweep 2, whose sign vector
    is the negation of sweep 1's. *)
Example scan_from_sweep1_would_reverse :
  opposite 1 2 = true /\
  first_aligned 1 0 (sweeps_from toy 1) = Some 2 /\
  spec_destination 1 1 0 (sweeps_from toy 1) = None.
Proof. repeat split. Qed.

Lemma sweeps_from_range d sweep l :
  l ∈ sweeps_from d sweep -> sweep <= l < nsweeps d.
Proof.
  unfold sweeps_from. intros (k & -> & Hk%elem_of_range)%list_elem_of_fmap. lia.
Qed.

(** A loop whose iterations each log at most one event. *)
Lemma forM_logs {A} (body : A -> State -> outcome State) (ev : A -> option Event) xs :
  (forall x s s', body x s = Done s' -> trace s' = trace s ++ option_list (ev x)) ->
  forall s s', forM body xs s = Done s' -> trace s' = trace s ++ omap ev xs.
Proof.
  intros Hbody. induction xs as [|x xs IH]; intros s s'; simpl.
  - intros [= <-]. rewrite app_nil_r. reflexivity.
  - destruct (body x s) as [s1|m] eqn:Hx; simpl; [|discriminate].
    intros Hrun. rewrite (IH _ _ Hrun), (Hbody _ _ _ Hx), <- app_assoc.
    destruct (ev x); reflexivity.
Qed.

(** What a finished [TransferSources] has logged: its deliveries, in loop
    order. *)
Lemma TransferSources_trace d sweep ip0 sol0 st st' :
  TransferSources d sweep ip0 sol0 st = Done st' ->
  trace st' = trace st ++ omap (delivery_event d sweep ip0) offsets9.
Proof.
  unfold TransferSources, offsets9, delivery_event.
  destruct (Getijk d ip0) as [[i0 j0] k0]. cbn [fst snd].
  intros Hrun.
  set (ev := fun ij : Z * Z =>
     if (i0 + ij.1 <? 0) || (i0 + ij.1 >=? nxyz d 0) then None
     else if (ij.1 =? 0) && (ij.2 =? 0) then None
     else if (j0 + ij.2 <? 0) || (j0 + ij.2 >=? nxyz d 1) then None
     else l' ← first_aligned ij.1 ij.2 (sweeps_from d sweep);
          Some (EvTransfer sweep ip0 (GetPatchId d [i0 + ij.1; j0 + ij.2]) l')).
  assert (Hrow : forall i s s',
     (if (i0 + i <? 0) || (i0 + i >=? nxyz d 0) then Done s else
      forM (fun j st0 =>
        if (i =? 0) && (j =? 0) then Done st0 else
        if (j0 + j <? 0) || (j0 + j >=? nxyz d 1) then Done st0 else
        deliver sweep ip0 (GetPatchId d [i0 + i; j0 + j]) i j
          (transfer_residual d ip0 (GetPatchId d [i0 + i; j0 + j]) i j sol0)
          (sweeps_from d sweep) st0) [-1; 0; 1] s) = Done s' ->
     trace s' = trace s ++ omap ev [(i, -1); (i, 0); (i, 1)]).
  { intros i s s'.
    destruct ((i0 + i <? 0) || (i0 + i >=? nxyz d 0)) eqn:Ei.
    - intros [= <-]. unfold ev. cbn [omap list_omap fst snd]. rewrite Ei.
      simpl. now rewrite app_nil_r.
    - intros Hin.
      apply (forM_logs _ (fun j => ev (i, j))) in Hin; [exact Hin|].
      intros j s0 s0'. unfold ev. cbn [fst snd]. rewrite Ei.
      destruct ((i =? 0) && (j =? 0)); [intros [= <-]; simpl; now rewrite app_nil_r|].
      destruct ((j0 + j <? 0) || (j0 + j >=? nxyz d 1));
        [intros [= <-]; simpl; now rewrite app_nil_r|].
      rewrite deliver_first_aligned.
      destruct (first_aligned i j (sweeps_from d sweep)) as [l'|];
        [|intros [= <-]; simpl; now rewrite app_nil_r].
      destruct (Nat.eqb _ _); [|discriminate].
      intros [= <-]. reflexivity. }
  simpl in Hrun.
  match type of Hrun with
  | obind ?r1 _ = _ => destruct r1 as [s1|] eqn:H1; simpl in Hrun; [|discriminate]
  end.
  match type of Hrun with
  | obind ?r2 _ = _ => destruct r2 as [s2|] eqn:H2; simpl in Hrun; [|discriminate]
  end.
  match type of Hrun with
  | obind ?r3 _ = _ => destruct r3 as [s3|] eqn:H3; simpl in Hrun; [|discriminate]
  end.
  injection Hrun as <-.
  apply Hrow in H1, H2, H3.
  rewrite !omap_app, H3, H2, H1, <- !app_assoc. reflexivity.
Qed.

(** A delivery is a transfer of the running sweep, from the patch at hand
    to the neighbour at the offset, into the first aligned sweep. *)
Lemma delivery_event_inv d sweep ip0 ij e :
  delivery_event d sweep ip0 ij = Some e ->
  ij <> (0, 0) /\
  exists l',
    e = EvTransfer sweep ip0
          (GetPatchId d [(Getijk d ip0).1.1 + ij.1; (Getijk d ip0).1.2 + ij.2]) l' /\
    first_aligned ij.1 ij.2 (sweeps_from d sweep) = Some l'.
Proof.
  unfold delivery_event. destruct ij as [i j]. cbn [fst snd].
  destruct (_ || _); [discriminate|].
  destruct ((i =? 0) && (j =? 0)) eqn:E0; [discriminate|].
  destruct (_ || _); [discriminate|].
  destruct (first_aligned i j (sweeps_from d sweep)) as [l'|]; [|discriminate].
  simpl. intros [= <-]. split; [|eauto].
  intros [= -> ->]. discriminate.
Qed.

(** Scanned from sweep 0, a horizontal or vertical offset of any length is
    delivered to sweep 0, 1 or 2, never to sweep 3. *)
Lemma sweep0_axis_destination i j l' :
  i = 0 \/ j = 0 -> first_aligned i j [0; 1; 2; 3] = Some l' ->
  aligned l' i j = true /\ opposite 0 l' = false.
Proof.
  intros Hax Hfind. unfold first_aligned in Hfind. cbn [List.find] in Hfind.
  destruct (aligned 0 i j) eqn:E0; [injection Hfind as <-; split; [exact E0|reflexivity]|].
  destruct (aligned 1 i j) eqn:E1; [injection Hfind as <-; split; [exact E1|reflexivity]|].
  destruct (aligned 2 i j) eqn:E2; [injection Hfind as <-; split; [exact E2|reflexivity]|].
  destruct (aligned 3 i j) eqn:E3; [|discriminate].
  exfalso. unfold aligned in E0, E1, E2, E3. cbn [sweeps] in E0, E1, E2, E3.
  apply Z.ltb_ge in E0, E1, E2. apply Z.ltb_lt in E3. lia.
Qed.


Lemma shape_accumulate sweep ip0 ip1 l res1 st :
  shape (accumulate sweep ip0 ip1 l res1 st) = shape st.
Proof.
  unfold shape, accumulate. simpl. f_equal. f_equal.
  apply fmap_alter_at_stable. intros row.
  apply fmap_alter_at_stable. intros v. apply length_add.
Qed.

Lemma shape_log e st : shape (log e st) = shape st.
Proof. reflexivity. Qed.

Lemma deliver_shape sh sweep ip0 ip1 i j res1 ls st st' :
  shape st = sh -> deliver sweep ip0 ip1 i j res1 ls st = Done st' -> shape st' = sh.
Proof.
  intros Hst. rewrite deliver_first_aligned.
  destruct (first_aligned i j ls) as [l'|]; [|intros [= <-]; exact Hst].
  destruct (Nat.eqb _ _); [|discriminate].
  intros [= <-]. rewrite shape_accumulate. exact Hst.
Qed.

Lemma forM_abort_msg {A S} (body : A -> S -> outcome S) (msg : string) xs :
  (forall y s m, body y s = Aborted m -> m = msg) ->
  forall s m, forM body xs s = Aborted m -> m = msg.
Proof.
  intros Hmsg. induction xs as [|y xs IH]; intros s m; simpl; [discriminate|].
  destruct (body y s) as [s1|m1] eqn:Hy; simpl.
  - apply IH.
  - intros [= <-]. eapply Hmsg. exact Hy.
Qed.

(** A loop dies as soon as one of its iterations is bound to die. *)
Lemma forM_aborts {A S} (I : S -> Prop) (body : A -> S -> outcome S) (msg : string) xs x :
  x ∈ xs ->
  (forall y s s', I s -> body y s = Done s' -> I s') ->
  (forall y s m, body y s = Aborted m -> m = msg) ->
  (forall s, I s -> body x s = Aborted msg) ->
  forall s, I s -> forM body xs s = Aborted msg.
Proof.
  intros Hx Hkeep Hmsg Hdie. induction xs as [|y xs IH]; intros s Hs.
  - inversion Hx.
  - simpl. destruct (body y s) as [s1|m1] eqn:Hy; simpl.
    + apply elem_of_cons in Hx as [->|Hx].
      * rewrite (Hdie _ Hs) in Hy. discriminate.
      * apply IH; [exact Hx|]. eapply Hkeep; eassumption.
    + f_equal. eapply Hmsg. exact Hy.
Qed.

Lemma deliver_abort_msg sweep ip0 ip1 i j res1 ls st m :
  deliver sweep ip0 ip1 i j res1 ls st = Aborted m ->
  m = "Transfer Sources: inconsistent size"%string.
Proof.
  rewrite deliver_first_aligned.
  destruct (first_aligned i j ls); [|discriminate].
  destruct (Nat.eqb _ _); [discriminate|]. intros [= <-]. reflexivity.
Qed.

Lemma nested_length {A} (xss yss : list (list (list A))) (i j : nat) :
  (fun row : list (list A) => length <$> row) <$> xss
  = (fun row : list (list A) => length <$> row) <$> yss ->
  length (default [] (xss !! i ≫= fun row => row !! j))
  = length (default [] (yss !! i ≫= fun row => row !! j)).
Proof.
  intros Ht.
  apply (f_equal (fun xs => xs !! i)) in Ht. rewrite !list_lookup_fmap in Ht.
  destruct (xss !! i) as [row|]; destruct (yss !! i) as [row'|];
    simpl in *; try discriminate; [|reflexivity].
  injection Ht as Ht.
  apply (f_equal (fun xs => xs !! j)) in Ht. rewrite !list_lookup_fmap in Ht.
  destruct (row !! j); destruct (row' !! j); simpl in *; try discriminate; [|reflexivity].
  injection Ht as Ht. exact Ht.
Qed.

(** The size of a buffer is part of the shape of the state. *)
Lemma shape_transf_length st st' ip l :
  shape st = shape st' -> length (transf_at st ip l) = length (transf_at st' ip l).
Proof.
  unfold shape. intros [= _ Ht _]. unfold transf_at, at_.
  destruct (ip <? 0); [reflexivity|].
  destruct (l <? 0).
  - destruct (f_transf st !! Z.to_nat ip), (f_transf st' !! Z.to_nat ip); reflexivity.
  - apply (nested_length (f_transf st) (f_transf st')). exact Ht.
Qed.

(** C8. When a transfer towards a neighbour has a destination sweep and the
    size of the gathered residual differs from the size of the destination
    buffer, [TransferSources] aborts with "Transfer Sources: inconsistent
    size"; at the point of delivery the buffer is accumulated into exactly
    when the two sizes agree. *)
Theorem C8_size_mismatch_is_fatal
    (d : DST) (sweep ip0 : Z) (sol0 : Vector) (i j l : Z) (st : State) :
  let i1 := (Getijk d ip0).1.1 + i in
  let j1 := (Getijk d ip0).1.2 + j in
  let ip1 := GetPatchId d [i1; j1] in
  let res1 := transfer_residual d ip0 ip1 i j sol0 in
  direction i j -> 0 <= i1 < nxyz d 0 -> 0 <= j1 < nxyz d 1 ->
  first_aligned i j (sweeps_from d sweep) = Some l ->
  (length (transf_at st ip1 l) <> length res1 ->
   TransferSources d sweep ip0 sol0 st = Aborted "Transfer Sources: inconsistent size" /\
   deliver sweep ip0 ip1 i j res1 (sweeps_from d sweep) st
   = Aborted "Transfer Sources: inconsistent size") /\
  (length (transf_at st ip1 l) = length res1 ->
   deliver sweep ip0 ip1 i j res1 (sweeps_from d sweep) st
   = Done (accumulate sweep ip0 ip1 l res1 st)) /\
  (forall st', deliver sweep ip0 ip1 i j res1 (sweeps_from d sweep) st = Done st' ->
   length (transf_at st ip1 l) = length res1).
Proof.
  intros i1 j1 ip1 res1 (Hi & Hj & Hne) Hi1 Hj1 Hl.
  assert (Hdel : forall s, shape s = shape st ->
            length (transf_at st ip1 l) <> length res1 ->
            deliver sweep ip0 ip1 i j res1 (sweeps_from d sweep) s
            = Aborted "Transfer Sources: inconsistent size").
  { intros s Hs Hlen. rewrite deliver_first_aligned, Hl.
    rewrite (shape_transf_length _ _ ip1 l Hs).
    destruct (Nat.eqb_spec (length (transf_at st ip1 l)) (length res1)); [contradiction|].
    reflexivity. }
  split; [|split].
  - intros Hlen. split; [|apply Hdel; [reflexivity|exact Hlen]].
    unfold TransferSources. subst i1 j1.
    destruct (Getijk d ip0) as [[i0 j0] k0]. cbn [fst snd] in *.
    apply (forM_aborts (fun s => shape s = shape st)) with (x := i); [| | | |reflexivity].
    + assert (i = -1 \/ i = 0 \/ i = 1) as [->|[->| ->]] by lia;
        repeat constructor.
    + intros y s s' Hs.
      destruct ((i0 + y <? 0) || (i0 + y >=? nxyz d 0)); [intros [= <-]; exact Hs|].
      revert s s' Hs. apply (forM_invariant (fun s => shape s = shape st)).
      intros y' s s' Hs.
      destruct ((y =? 0) && (y' =? 0)); [intros [= <-]; exact Hs|].
      destruct ((j0 + y' <? 0) || (j0 + y' >=? nxyz d 1)); [intros [= <-]; exact Hs|].
      apply deliver_shape. exact Hs.
    + intros y s m.
      destruct ((i0 + y <? 0) || (i0 + y >=? nxyz d 0)); [discriminate|].
      apply forM_abort_msg. intros y' s0 m0.
      destruct ((y =? 0) && (y' =? 0)); [discriminate|].
      destruct ((j0 + y' <? 0) || (j0 + y' >=? nxyz d 1)); [discriminate|].
      apply deliver_abort_msg.
    + intros s Hs.
      assert (((i0 + i <? 0) || (i0 + i >=? nxyz d 0)) = false) as ->.
      { rewrite Z.geb_leb. apply orb_false_intro; [apply Z.ltb_ge|apply Z.leb_gt]; lia. }
      apply (forM_aborts (fun s => shape s = shape st)) with (x := j); [| | | |exact Hs].
      * assert (j = -1 \/ j = 0 \/ j = 1) as [->|[->| ->]] by lia;
          repeat constructor.
      * intros y' s0 s0' Hs0.
        destruct ((i =? 0) && (y' =? 0)); [intros [= <-]; exact Hs0|].
        destruct ((j0 + y' <? 0) || (j0 + y' >=? nxyz d 1)); [intros [= <-]; exact Hs0|].
        apply deliver_shape. exact Hs0.
      * intros y' s0 m0.
        destruct ((i =? 0) && (y' =? 0)); [discriminate|].
        destruct ((j0 + y' <? 0) || (j0 + y' >=? nxyz d 1)); [discriminate|].
        apply deliver_abort_msg.
      * intros s0 Hs0.
        assert (((i =? 0) && (j =? 0)) = false) as ->.
        { destruct (Z.eqb_spec i 0), (Z.eqb_spec j 0); try reflexivity. subst. congruence. }
        assert (((j0 + j <? 0) || (j0 + j >=? nxyz d 1)) = false) as ->.
        { rewrite Z.geb_leb. apply orb_false_intro; [apply Z.ltb_ge|apply Z.leb_gt]; lia. }
        apply Hdel; assumption.
  - intros Hlen. rewrite deliver_first_aligned, Hl, Hlen, Nat.eqb_refl. reflexivity.
  - intros st'. rewrite deliver_first_aligned, Hl.
    destruct (Nat.eqb_spec (length (transf_at st ip1 l)) (length res1)) as [E|E];
      [intros; exact E|discriminate].
Qed.

Lemma C8_size_mismatch_is_fatal_witness :
  TransferSources skewed 0 0 [1%float; 0%float] (toy_state 0)
  = Aborted "Transfer Sources: inconsistent size".
Proof.
  apply (C8_size_mismatch_is_fatal skewed 0 0 [1%float; 0%float] 1 0 0 (toy_state 0)).
  - repeat split; [lia|lia|lia|lia|discriminate].
  - vm_compute. split; [discriminate|reflexivity].
  - vm_compute. split; [discriminate|reflexivity].
  - reflexivity.
  - vm_compute. lia.
Defined.

(** The abort ends the whole application: with the defective DOF map, the
    first transfer towards patch 1 kills [Mult]. *)
Example size_mismatch_aborts_Mult :
  Mult toy_norm skewed [1%float; 0%float] (toy_state 0)
  = Aborted "Transfer Sources: inconsistent size".
Proof. vm_compute. reflexivity. Qed.

(** ** The order of a sweep *)

(** Sortedness goes through the two list constructions of [sweep_order]. *)
Lemma omap_sorted {A B} (R : relation A) (R' : relation B) (f : A -> option B) xs :
  (forall x y a b, R x y -> f x = Some a -> f y = Some b -> R' a b) ->
  StronglySorted R xs -> StronglySorted R' (omap f xs).
Proof.
  intros Hf. induction 1 as [|x xs Hs IH Hall]; simpl; [constructor|].
  destruct (f x) as [a|] eqn:Hx; [|exact IH].
  constructor; [exact IH|].
  apply Forall_forall. intros b (y & Hy & Hfy)%list_elem_of_omap.
  rewrite Forall_forall in Hall. eauto.
Qed.

Lemma bind_sorted {A B} (R : relation A) (R' : relation B) (f : A -> list B) xs :
  (forall x, StronglySorted R' (f x)) ->
  (forall x y a b, R x y -> a ∈ f x -> b ∈ f y -> R' a b) ->
  StronglySorted R xs -> StronglySorted R' (xs ≫= f).
Proof.
  intros Hin Hout. induction 1 as [|x xs Hs IH Hall]; [constructor|].
  change ((x :: xs) ≫= f) with (f x ++ (xs ≫= f)).
  apply StronglySorted_app_2; [|apply Hin|exact IH].
  intros a b Ha (y & Hb & Hy)%list_elem_of_bind.
  rewrite Forall_forall in Hall. eauto.
Qed.

Lemma elem_of_front l nx ny s i j :
  (i, j) ∈ front l nx ny s <-> 0 <= i < nx /\ j = front_j l nx ny s i /\ 0 <= j < ny.
Proof.
  unfold front. rewrite list_elem_of_omap. split.
  - intros (x & Hx%elem_of_range & Hsome).
    destruct (front_j l nx ny s x <? 0) eqn:E1;
      destruct (front_j l nx ny s x >=? ny) eqn:E2; simpl in Hsome; try discriminate.
    injection Hsome as <- <-. lia.
  - intros (Hi & -> & Hj). exists i. split; [apply elem_of_range; exact Hi|].
    destruct (front_j l nx ny s i <? 0) eqn:E1;
      destruct (front_j l nx ny s i >=? ny) eqn:E2; simpl; try reflexivity; lia.
Qed.

Lemma elem_of_sweep_order l nx ny s i j :
  (s, i, j) ∈ sweep_order l nx ny <->
  0 <= s < nx + ny - 1 /\ 0 <= i < nx /\ j = front_j l nx ny s i /\ 0 <= j < ny.
Proof.
  unfold sweep_order. rewrite list_elem_of_bind. split.
  - intros (s' & ([i' j'] & [= -> -> ->] & Hin)%list_elem_of_fmap & Hs%elem_of_range).
    apply elem_of_front in Hin. tauto.
  - intros (Hs & Hin). exists s. split; [|apply elem_of_range; exact Hs].
    apply list_elem_of_fmap. exists (i, j). split; [reflexivity|].
    apply elem_of_front. exact Hin.
Qed.

(** Whatever the sweep, its patches come in program order. *)
Lemma sweep_order_sorted l nx ny : StronglySorted earlier (sweep_order l nx ny).
Proof.
  unfold sweep_order.
  apply bind_sorted with (R := Z.lt); [| |apply range_increasing].
  - intros s. unfold front.
    rewrite list_fmap_omap.
    apply omap_sorted with (R := Z.lt); [|apply range_increasing].
    intros x y a b Hxy Hx Hy.
    destruct (front_j l nx ny s x <? 0), (front_j l nx ny s x >=? ny);
      simpl in Hx; try discriminate;
    destruct (front_j l nx ny s y <? 0), (front_j l nx ny s y >=? ny);
      simpl in Hy; try discriminate.
    injection Hx as <-. injection Hy as <-. right. simpl. lia.
  - intros s s' a b Hlt (ij & -> & _)%list_elem_of_fmap (ij' & -> & _)%list_elem_of_fmap.
    left. simpl. exact Hlt.
Qed.

Lemma sorted_precedes (xs : list (Z * Z * Z)) x y :
  StronglySorted earlier xs -> x ∈ xs -> y ∈ xs -> earlier x y -> precedes x y xs.
Proof.
  intros Hs Hx Hy Hxy.
  destruct (list_elem_of_split _ _ Hx) as (l1 & l2 & ->).
  apply elem_of_app in Hy as [Hy|Hy].
  - assert (earlier y x) as Hyx.
    { eapply StronglySorted_app_1_elem_of; [exact Hs|exact Hy|left]. }
    unfold earlier in *. lia.
  - apply elem_of_cons in Hy as [->|Hy]; [unfold earlier in Hxy; lia|].
    destruct (list_elem_of_split _ _ Hy) as (l3 & l4 & ->).
    exists l1, l3, l4. reflexivity.
Qed.

Lemma sorted_NoDup (xs : list (Z * Z * Z)) : StronglySorted earlier xs -> NoDup xs.
Proof.
  induction 1 as [|x xs Hs IH Hall]; constructor; [|exact IH].
  intros Hin. rewrite Forall_forall in Hall. specialize (Hall _ Hin).
  unfold earlier in Hall. lia.
Qed.

Lemma visits_log_visit l ip st : visits (trace (log (EvVisit l ip) st)) = visits (trace st) ++ [ip].
Proof. unfold visits. simpl. rewrite omap_app. reflexivity. Qed.

Lemma visits_log_other e st :
  (forall l ip, e <> EvVisit l ip) -> visits (trace (log e st)) = visits (trace st).
Proof.
  intros He. unfold visits. simpl. rewrite omap_app. simpl.
  destruct e; try (rewrite app_nil_r; reflexivity). exfalso. eapply He. reflexivity.
Qed.

Lemma deliver_visits V sweep ip0 ip1 i j res1 ls st st' :
  visits (trace st) = V -> deliver sweep ip0 ip1 i j res1 ls st = Done st' ->
  visits (trace st') = V.
Proof.
  intros Hst. rewrite deliver_first_aligned.
  destruct (first_aligned i j ls) as [l'|]; [|intros [= <-]; exact Hst].
  destruct (Nat.eqb _ _); [|discriminate].
  intros [= <-]. unfold accumulate. rewrite visits_log_other by discriminate. exact Hst.
Qed.

Lemma TransferSources_visits V d l ip0 sol0 st st' :
  visits (trace st) = V -> TransferSources d l ip0 sol0 st = Done st' ->
  visits (trace st') = V.
Proof.
  unfold TransferSources. destruct (Getijk d ip0) as [[i0 j0] k0].
  apply (forM_invariant (fun s => visits (trace s) = V)). intros i s s' Hs.
  destruct ((i0 + i <? 0) || (i0 + i >=? nxyz d 0)); [intros [= <-]; exact Hs|].
  revert s s' Hs. apply (forM_invariant (fun s => visits (trace s) = V)). intros j s s' Hs.
  destruct ((i =? 0) && (j =? 0)); [intros [= <-]; exact Hs|].
  destruct ((j0 + j <? 0) || (j0 + j >=? nxyz d 1)); [intros [= <-]; exact Hs|].
  apply deliver_visits. exact Hs.
Qed.

Lemma visit_patch_visits Norml2 d l s i j st st' :
  visit_patch Norml2 d l (s, i, j) st = Done st' ->
  visits (trace st') = visits (trace st) ++ [GetPatchId d [i; j]].
Proof.
  unfold visit_patch.
  destruct (Norml2 _ <? threshold)%float.
  - intros [= <-]. apply visits_log_visit.
  - destruct (TransferSources _ _ _ _ _) as [st1|msg] eqn:Ht; simpl; [|discriminate].
    intros [= <-]. rewrite visits_log_other by discriminate.
    change (trace (set_z ?v st1)) with (trace st1).
    eapply TransferSources_visits; [|exact Ht].
    rewrite visits_log_other by discriminate. apply visits_log_visit.
Qed.

(** A sweep that runs to its end has visited the patches of [sweep_order],
    in that order, each visit being either a skip or a solve. *)
Lemma sweep_visits_follow_order Norml2 d l st st' :
  sweep Norml2 d l st = Done st' ->
  visits (trace st') =
  visits (trace st) ++
    ((fun t => GetPatchId d [t.1.2; t.2]) <$> sweep_order l (nxyz d 0) (nxyz d 1)).
Proof.
  unfold sweep. generalize (sweep_order l (nxyz d 0) (nxyz d 1)) as xs.
  intros xs. revert st. induction xs as [|[[s i] j] xs IH]; intros st; cbn [forM fmap list_fmap].
  - intros [= <-]. rewrite app_nil_r. reflexivity.
  - destruct (visit_patch Norml2 d l (s, i, j) st) as [s1|msg] eqn:Hv;
      cbn [obind]; [|discriminate].
    intros Hrun. rewrite (IH _ Hrun), (visit_patch_visits _ _ _ _ _ _ _ _ Hv).
    rewrite <- app_assoc. reflexivity.
Qed.

(** A loop whose iterations all finish and keep an invariant finishes. *)
Lemma forM_total {A S} (I : S -> Prop) (body : A -> S -> outcome S) xs :
  (forall x s, I s -> exists s', body x s = Done s' /\ I s') ->
  forall s, I s -> exists s', forM body xs s = Done s' /\ I s'.
Proof.
  intros Hbody. induction xs as [|x xs IH]; intros s Hs; simpl.
  - exists s. split; [reflexivity|exact Hs].
  - destruct (Hbody x s Hs) as (s1 & -> & Hs1). simpl. apply IH, Hs1.
Qed.

Lemma length_transfer_residual d ip0 ip1 i j sol0 :
  length (transfer_residual d ip0 ip1 i j sol0) = length (Dof2GlobalDof d ip1).
Proof. unfold transfer_residual, GetSubVector. rewrite length_fmap. reflexivity. Qed.

Lemma buffers_fit_by_shape d st s :
  shape s = shape st -> buffers_fit d st -> buffers_fit d s.
Proof.
  intros Hs Hfit i j l Hi Hj Hl.
  rewrite (shape_transf_length _ _ _ _ Hs). apply Hfit; assumption.
Qed.

(** With buffers of the right sizes the size test of the delivery passes ... *)
Lemma deliver_finishes d sweep ip0 i1 j1 i j res1 st :
  0 <= sweep -> buffers_fit d st ->
  0 <= i1 < nxyz d 0 -> 0 <= j1 < nxyz d 1 ->
  length res1 = length (Dof2GlobalDof d (GetPatchId d [i1; j1])) ->
  exists st',
    deliver sweep ip0 (GetPatchId d [i1; j1]) i j res1 (sweeps_from d sweep) st = Done st' /\
    shape st' = shape st.
Proof.
  intros Hsw Hfit Hi Hj Hlen. rewrite deliver_first_aligned.
  destruct (first_aligned i j (sweeps_from d sweep)) as [l|] eqn:Hl.
  - destruct (first_aligned_smallest _ _ _ _ Hl) as (l1 & l2 & Hls & _ & _).
    assert (Hin : l ∈ sweeps_from d sweep).
    { rewrite Hls. apply elem_of_app. right. left. }
    apply sweeps_from_range in Hin.
    rewrite (Hfit i1 j1 l Hi Hj ltac:(lia)), Hlen, Nat.eqb_refl.
    eexists. split; [reflexivity|apply shape_accumulate].
  - exists st. split; reflexivity.
Qed.

(** ... so [TransferSources], a visit and a whole sweep run to their end. *)
Lemma TransferSources_finishes d sweep ip0 sol0 st s :
  0 <= sweep -> buffers_fit d st -> shape s = shape st ->
  exists s', TransferSources d sweep ip0 sol0 s = Done s' /\ shape s' = shape st.
Proof.
  intros Hsw Hfit. unfold TransferSources. destruct (Getijk d ip0) as [[i0 j0] k0].
  revert s. apply (forM_total (fun s => shape s = shape st)). intros i s Hs.
  destruct ((i0 + i <? 0) || (i0 + i >=? nxyz d 0)) eqn:Ei;
    [exists s; split; [reflexivity|exact Hs]|].
  revert s Hs. apply (forM_total (fun s => shape s = shape st)). intros j s Hs.
  destruct ((i =? 0) && (j =? 0)); [exists s; split; [reflexivity|exact Hs]|].
  destruct ((j0 + j <? 0) || (j0 + j >=? nxyz d 1)) eqn:Ej;
    [exists s; split; [reflexivity|exact Hs]|].
  apply orb_false_elim in Ei as [Ei1 Ei2]. apply orb_false_elim in Ej as [Ej1 Ej2].
  apply Z.ltb_ge in Ei1, Ej1. rewrite Z.geb_leb in Ei2, Ej2.
  apply Z.leb_gt in Ei2, Ej2.
  destruct (deliver_finishes d sweep ip0 (i0 + i) (j0 + j) i j
              (transfer_residual d ip0 (GetPatchId d [i0 + i; j0 + j]) i j sol0) s
              Hsw (buffers_fit_by_shape _ _ _ Hs Hfit) ltac:(lia) ltac:(lia)
              (length_transfer_residual _ _ _ _ _ _)) as (s' & Hd & Hsh).
  exists s'. split; [exact Hd|congruence].
Qed.

Lemma visit_patch_finishes Norml2 d l sij st s :
  0 <= l -> buffers_fit d st -> shape s = shape st ->
  exists s', visit_patch Norml2 d l sij s = Done s' /\ shape s' = shape st.
Proof.
  intros Hl Hfit Hs. destruct sij as [[fr i] j]. unfold visit_patch.
  destruct (Norml2 _ <? threshold)%float.
  - eexists. split; [reflexivity|exact Hs].
  - match goal with
    | |- context [TransferSources ?a ?b ?c ?e ?f] =>
        destruct (TransferSources_finishes a b c e st f Hl Hfit Hs) as (s1 & Ht & Hs1)
    end.
    rewrite Ht. cbn [obind]. eexists. split; [reflexivity|].
    rewrite <- Hs1. unfold shape. simpl. rewrite length_add. reflexivity.
Qed.

Lemma sweep_finishes Norml2 d l st :
  0 <= l -> buffers_fit d st ->
  exists st', sweep Norml2 d l st = Done st' /\ shape st' = shape st.
Proof.
  intros Hl Hfit. unfold sweep.
  apply (forM_total (fun s => shape s = shape st)); [|reflexivity].
  intros x s Hs. apply visit_patch_finishes; assumption.
Qed.

(** The buffers of the 2 x 2 instance have the sizes of its index lists. *)
Lemma toy_prologue_fits :
  buffers_fit toy (Mult_prologue toy [1%float; 0%float] (toy_state 0)).
Proof.
  intros i j l Hi Hj Hl. cbn in Hi, Hj. change (nsweeps toy) with 4 in Hl.
  assert (i = 0 \/ i = 1) as [->| ->] by lia;
  assert (j = 0 \/ j = 1) as [->| ->] by lia;
  assert (l = 0 \/ l = 1 \/ l = 2 \/ l = 3) as [->|[->|[->| ->]]] by lia;
  reflexivity.
Qed.

(** C3. Sweep 0 over an [nx] by [ny] grid visits its patches in the order
    [sweep_order 0 nx ny]: with buffers of the right sizes it runs to its
    end, and a sweep that has run to its end has visited exactly that
    list.  That order reaches every patch [(i,j)] of the grid exactly
    once, on the front [s = i+j]; it reaches nothing else; the fronts come
    in increasing order [0 .. nx+ny-2], each front by increasing [i]; and
    every other patch [(i',j')] with [i' <= i] and [j' <= j] is reached
    before [(i,j)]. *)
Theorem C3_sweep0_front_order (nx ny : Z) :
  (forall Norml2 d st st',
     nxyz d 0 = nx -> nxyz d 1 = ny -> sweep Norml2 d 0 st = Done st' ->
     visits (trace st') =
     visits (trace st) ++ ((fun t => GetPatchId d [t.1.2; t.2]) <$> sweep_order 0 nx ny)) /\
  (forall i j, 0 <= i < nx -> 0 <= j < ny -> (i + j, i, j) ∈ sweep_order 0 nx ny) /\
  (forall s i j, (s, i, j) ∈ sweep_order 0 nx ny ->
     0 <= i < nx /\ 0 <= j < ny /\ s = i + j /\ 0 <= s <= nx + ny - 2) /\
  NoDup ((fun t => (t.1.2, t.2)) <$> sweep_order 0 nx ny) /\
  StronglySorted earlier (sweep_order 0 nx ny) /\
  StronglySorted Z.le ((fun t => t.1.1) <$> sweep_order 0 nx ny) /\
  (forall i j i' j',
     0 <= i < nx -> 0 <= j < ny -> 0 <= i' <= i -> 0 <= j' <= j ->
     (i', j') <> (i, j) ->
     precedes (i' + j', i', j') (i + j, i, j) (sweep_order 0 nx ny)) /\
  (forall Norml2 d st,
     dim d = 2 -> nxyz d 0 = nx -> nxyz d 1 = ny -> buffers_fit d st ->
     exists st',
       sweep Norml2 d 0 st = Done st' /\
       visits (trace st') =
       visits (trace st) ++
         ((fun t => GetPatchId d [t.1.2; t.2]) <$> sweep_order 0 nx ny)).
Proof.
  assert (Hin : forall i j, 0 <= i < nx -> 0 <= j < ny ->
                            (i + j, i, j) ∈ sweep_order 0 nx ny).
  { intros i j Hi Hj. apply elem_of_sweep_order. simpl. lia. }
  assert (Hout : forall s i j, (s, i, j) ∈ sweep_order 0 nx ny ->
     0 <= i < nx /\ 0 <= j < ny /\ s = i + j /\ 0 <= s <= nx + ny - 2).
  { intros s i j H%elem_of_sweep_order. simpl in H. lia. }
  pose proof (sweep_order_sorted 0 nx ny) as Hs.
  split.
  { intros Norml2 d st st' <- <-. apply sweep_visits_follow_order. }
  split; [exact Hin|]. split; [exact Hout|]. split; [|split; [exact Hs|split; [|split]]].
  - apply NoDup_fmap_2_strong; [|apply sorted_NoDup, Hs].
    intros [[s i] j] [[s' i'] j'] H1%Hout H2%Hout [= -> ->].
    f_equal. f_equal. lia.
  - revert Hs. generalize (sweep_order 0 nx ny).
    induction 1 as [|x xs Hs IH Hall]; simpl; constructor; [exact IH|].
    apply Forall_fmap. eapply Forall_impl; [exact Hall|].
    intros y Hy. unfold earlier in Hy. simpl. lia.
  - intros i j i' j' Hi Hj Hi' Hj' Hne.
    apply sorted_precedes; [exact Hs|apply Hin; lia|apply Hin; lia|].
    left. simpl.
    assert (i' <> i \/ j' <> j) by (destruct (Z.eq_dec i' i); [right|left]; congruence).
    lia.
  - intros Norml2 d st _ <- <- Hfit.
    destruct (sweep_finishes Norml2 d 0 st ltac:(lia) Hfit) as (st' & Hrun & _).
    exists st'. split; [exact Hrun|].
    exact (sweep_visits_follow_order _ _ _ _ _ Hrun).
Qed.

Lemma C3_sweep0_front_order_witness :
  exists st',
    sweep toy_norm toy 0 (Mult_prologue toy [1%float; 0%float] (toy_state 0)) = Done st' /\
    visits (trace st') = [0; 2; 1; 3] /\
    (1, 0, 1) ∈ sweep_order 0 2 2 /\
    precedes (0, 0, 0) (2, 1, 1) (sweep_order 0 2 2) /\
    precedes (1, 0, 1) (2, 1, 1) (sweep_order 0 2 2).
Proof.
  destruct (C3_sweep0_front_order 2 2) as (_ & Hin & _ & _ & _ & _ & Hbefore & Hruns).
  destruct (Hruns toy_norm toy (Mult_prologue toy [1%float; 0%float] (toy_state 0))
              eq_refl eq_refl eq_refl toy_prologue_fits) as (st' & Hrun & Hvis).
  exists st'. split; [exact Hrun|].
  split; [rewrite Hvis; reflexivity|].
  split; [apply (Hin 0 1); lia|].
  split; [apply (Hbefore 1 1 0 0)|apply (Hbefore 1 1 0 1)]; try lia; discriminate.
Defined.

(** ** Skipping a patch *)

(** C4. In sweep [l] the local residual of the visited patch is its original
    source, taken only when [l = 0], plus its transfer buffer for [l]; when
    the norm of that residual is below [1e-11] the patch is skipped: the run
    goes on with the buffers and the output untouched, and neither a solve,
    nor a transfer, nor a correction is performed. *)
Theorem C4_small_residual_skips_patch
    (Norml2 : Vector -> float) (d : DST) (l s i j : Z) (st : State) :
  let ip := GetPatchId d [i; j] in
  let ndofs := length (Dof2GlobalDof d ip) in
  (Norml2 (local_residual d l ip st) <? threshold)%float = true ->
  local_residual d l ip st =
    Vec.add (if l =? 0 then Vec.add (Vec.zero ndofs) (orig_at st ip) else Vec.zero ndofs)
            (transf_at st ip l) /\
  exists st',
    visit_patch Norml2 d l (s, i, j) st = Done st' /\
    f_orig st' = f_orig st /\ f_transf st' = f_transf st /\ z st' = z st /\
    trace st' = trace st ++ [EvVisit l ip].
Proof.
  intros ip ndofs Hsmall. split; [reflexivity|].
  exists (log (EvVisit l ip) st).
  unfold visit_patch. fold ip. rewrite Hsmall. repeat split; reflexivity.
Qed.

Lemma C4_small_residual_skips_patch_witness :
  exists st',
    visit_patch toy_norm toy 0 (0, 0, 0) (toy_state 0) = Done st' /\
    f_orig st' = f_orig (toy_state 0) /\ f_transf st' = f_transf (toy_state 0) /\
    z st' = z (toy_state 0) /\ trace st' = [EvVisit 0 0].
Proof.
  apply (C4_small_residual_skips_patch toy_norm toy 0 0 0 0 (toy_state 0)).
  vm_compute. reflexivity.
Defined.

(** A patch whose residual is not small is solved, transfers and corrects. *)
Example large_residual_is_processed :
  exists st',
    visit_patch toy_norm toy 0 (0, 0, 0)
      (set_f_orig (replicate 4 [1%float; 0%float]) (toy_state 0)) = Done st' /\
    trace st' = [EvVisit 0 0; EvSolve 0 0; EvTransfer 0 0 2 0; EvTransfer 0 0 1 0;
                 EvTransfer 0 0 3 0; EvCorrect 0 0] /\
    z st' = [0.5%float; 0%float].
Proof. eexists. split; [vm_compute; reflexivity|]. split; reflexivity. Qed.

(** ** Which sweep an event belongs to *)

Lemma in_sweep_log l e st : ev_sweep e = l -> in_sweep l st -> in_sweep l (log e st).
Proof.
  unfold in_sweep. simpl. intros He Hst. apply Forall_app. split; [exact Hst|].
  constructor; [exact He|constructor].
Qed.

Lemma deliver_in_sweep l ip0 ip1 i j res1 ls st st' :
  in_sweep l st -> deliver l ip0 ip1 i j res1 ls st = Done st' -> in_sweep l st'.
Proof.
  intros Hst. rewrite deliver_first_aligned.
  destruct (first_aligned i j ls) as [l'|]; [|intros [= <-]; exact Hst].
  destruct (Nat.eqb _ _); [|discriminate].
  intros [= <-]. apply in_sweep_log; [reflexivity|exact Hst].
Qed.

Lemma TransferSources_in_sweep d l ip0 sol0 st st' :
  in_sweep l st -> TransferSources d l ip0 sol0 st = Done st' -> in_sweep l st'.
Proof.
  unfold TransferSources. destruct (Getijk d ip0) as [[i0 j0] k0].
  apply (forM_invariant (in_sweep l)). intros i s s' Hs.
  destruct ((i0 + i <? 0) || (i0 + i >=? nxyz d 0)); [intros [= <-]; exact Hs|].
  revert s s' Hs. apply (forM_invariant (in_sweep l)). intros j s s' Hs.
  destruct ((i =? 0) && (j =? 0)); [intros [= <-]; exact Hs|].
  destruct ((j0 + j <? 0) || (j0 + j >=? nxyz d 1)); [intros [= <-]; exact Hs|].
  apply deliver_in_sweep. exact Hs.
Qed.

Lemma visit_patch_in_sweep Norml2 d l sij st st' :
  in_sweep l st -> visit_patch Norml2 d l sij st = Done st' -> in_sweep l st'.
Proof.
  destruct sij as [[s i] j]. unfold visit_patch. intros Hst.
  destruct (Norml2 _ <? threshold)%float.
  - intros [= <-]. apply in_sweep_log; [reflexivity|exact Hst].
  - destruct (TransferSources _ _ _ _ _) as [st1|msg] eqn:Ht; simpl; [|discriminate].
    intros [= <-]. apply in_sweep_log; [reflexivity|].
    apply TransferSources_in_sweep in Ht.
    + exact Ht.
    + apply in_sweep_log; [reflexivity|]. apply in_sweep_log; [reflexivity|exact Hst].
Qed.

Lemma sweep_in_sweep Norml2 d l st st' :
  in_sweep l st -> sweep Norml2 d l st = Done st' -> in_sweep l st'.
Proof.
  unfold sweep. apply (forM_invariant (in_sweep l)).
  intros x s s'. apply visit_patch_in_sweep.
Qed.

(** C5. One application runs the sweep loop for sweep index 0 only: [Mult] is
    the prologue followed by sweep 0, and every visit (the read of
    [f_transf[ip][l]]), solve, transfer and correction of the run belongs to
    sweep 0.  The transfers of that sweep nevertheless write into buffers of
    later sweeps, which the application leaves unread: on the 2 x 2 instance
    the run adds into [f_transf[0][2]], and the buffer is still non-zero when
    [Mult] returns. *)
Theorem C5_single_sweep_with_forward_transfers :
  (forall Norml2 d r st,
     Mult Norml2 d r st = sweep Norml2 d 0 (Mult_prologue d r st)) /\
  (forall Norml2 d r st st',
     Mult Norml2 d r st = Done st' -> Forall (fun e => ev_sweep e = 0) (trace st')) /\
  (exists st',
     Mult toy_norm toy [1%float; 0%float] (toy_state 0) = Done st' /\
     In (EvTransfer 0 2 0 2) (trace st') /\
     ~ In (EvVisit 2 0) (trace st') /\
     transf_at st' 0 2 = [(-0.25)%float; 0%float]).
Proof.
  assert (H1 : forall Norml2 d r st,
     Mult Norml2 d r st = sweep Norml2 d 0 (Mult_prologue d r st)).
  { intros. unfold Mult. change (range 1) with [0]. simpl.
    destruct (sweep Norml2 d 0 _); reflexivity. }
  split; [exact H1|]. split.
  - intros Norml2 d r st st'. rewrite H1. apply sweep_in_sweep. constructor.
  - eexists. split; [vm_compute; reflexivity|].
    split; [|split; [|reflexivity]].
    + simpl. do 8 right. left. reflexivity.
    + simpl. intros H. repeat (destruct H as [H|H]; [discriminate|]). exact H.
Qed.

Lemma C5_single_sweep_with_forward_transfers_witness :
  exists st',
    Mult toy_norm toy [1%float; 0%float] (toy_state 7) = Done st' /\
    Forall (fun e => ev_sweep e = 0) (trace st').
Proof.
  destruct C5_single_sweep_with_forward_transfers as (_ & Hsweep0 & _).
  eexists. split; [vm_compute; reflexivity|].
  apply (Hsweep0 toy_norm toy [1%float; 0%float] (toy_state 7)).
  vm_compute. reflexivity.
Defined.

(** ** The transfers of an application *)

Lemma Mult_is_sweep0 Norml2 d r st :
  Mult Norml2 d r st = sweep Norml2 d 0 (Mult_prologue d r st).
Proof.
  unfold Mult. change (range 1) with [0]. simpl.
  destruct (sweep Norml2 d 0 _); reflexivity.
Qed.

(** Every event of an application belongs to sweep 0, and every transfer in
    it is the delivery that [TransferSources], called for sweep 0, makes
    for one of its nine offsets. *)
Lemma Mult_transfers Norml2 d r st st' :
  Mult Norml2 d r st = Done st' ->
  Forall (fun e =>
            ev_sweep e = 0 /\
            forall l ip0 ip1 l', e = EvTransfer l ip0 ip1 l' ->
              exists ij, ij ∈ offsets9 /\ delivery_event d 0 ip0 ij = Some e)
         (trace st').
Proof.
  rewrite Mult_is_sweep0. unfold sweep.
  apply (forM_invariant (fun s =>
    Forall (fun e =>
              ev_sweep e = 0 /\
              forall l ip0 ip1 l', e = EvTransfer l ip0 ip1 l' ->
                exists ij, ij ∈ offsets9 /\ delivery_event d 0 ip0 ij = Some e)
           (trace s))); [|constructor].
  intros [[fr i] j] s s' Hs. unfold visit_patch.
  destruct (Norml2 _ <? threshold)%float.
  - intros [= <-]. simpl. apply Forall_app. split; [exact Hs|].
    constructor; [|constructor]. split; [reflexivity|discriminate].
  - destruct (TransferSources _ _ _ _ _) as [s1|msg] eqn:Ht; simpl; [|discriminate].
    intros [= <-]. apply TransferSources_trace in Ht.
    cbn [trace log set_z] in Ht |- *. rewrite Ht.
    repeat (apply Forall_app; split); [exact Hs| | | |].
    + constructor; [|constructor]. split; [reflexivity|discriminate].
    + constructor; [|constructor]. split; [reflexivity|discriminate].
    + apply Forall_forall. intros e (ij & Hij & He)%list_elem_of_omap.
      destruct (delivery_event_inv _ _ _ _ _ He) as (_ & l' & Heq & _).
      split; [rewrite Heq; reflexivity|].
      intros l ip0 ip1 l0 Heq'. rewrite Heq in Heq'. injection Heq' as _ <- _ _.
      exists ij. split; [exact Hij|exact He].
    + constructor; [|constructor]. split; [reflexivity|discriminate].
Qed.

(** C1. Every transfer of an application is computed in sweep 0, the only
    sweep [Mult] runs, and is the delivery for one of the offsets of
    [TransferSources]; when that offset is purely horizontal or vertical,
    the sweep it is delivered to is aligned with the offset and its sign
    vector is not the negation of the sign vector of the sweep the
    transfer was computed in. *)
Theorem C1_axis_transfer_avoids_opposite_sweep
    (Norml2 : Vector -> float) (d : DST) (r : Vector) (st st' : State) :
  dim d = 2 ->
  Mult Norml2 d r st = Done st' ->
  forall l ip0 ip1 l',
    EvTransfer l ip0 ip1 l' ∈ trace st' ->
    l = 0 /\
    (exists ij, ij ∈ offsets9 /\
                delivery_event d l ip0 ij = Some (EvTransfer l ip0 ip1 l')) /\
    (forall i j,
       delivery_event d l ip0 (i, j) = Some (EvTransfer l ip0 ip1 l') ->
       i = 0 \/ j = 0 ->
       aligned l' i j = true /\ opposite l l' = false).
Proof.
  intros Hdim Hrun l ip0 ip1 l' Hin.
  pose proof (Mult_transfers _ _ _ _ _ Hrun) as Hall.
  rewrite Forall_forall in Hall. destruct (Hall _ Hin) as [Hl Hex].
  cbn [ev_sweep] in Hl. subst l.
  split; [reflexivity|]. split; [exact (Hex _ _ _ _ eq_refl)|].
  intros i j Hdel Hax.
  destruct (delivery_event_inv _ _ _ _ _ Hdel) as (_ & l0 & Heq & Hfa).
  injection Heq as _ <-. cbn [fst snd] in Hfa.
  rewrite (sweeps_from_2D d 0 Hdim ltac:(lia)) in Hfa.
  exact (sweep0_axis_destination i j l' Hax Hfa).
Qed.

Lemma C1_axis_transfer_avoids_opposite_sweep_witness :
  exists st',
    Mult toy_norm toy [1%float; 0%float] (toy_state 0) = Done st' /\
    EvTransfer 0 2 0 2 ∈ trace st' /\
    aligned 2 0 (-1) = true /\ opposite 0 2 = false.
Proof.
  eexists. split; [vm_compute; reflexivity|].
  match goal with
  | |- ?e ∈ ?tr /\ _ => assert (Hin : e ∈ tr) by (simpl; do 8 right; left)
  end.
  split; [exact Hin|].
  destruct (C1_axis_transfer_avoids_opposite_sweep toy_norm toy [1%float; 0%float]
              (toy_state 0) _ eq_refl ltac:(vm_compute; reflexivity) 0 2 0 2 Hin)
    as (_ & _ & Haxis).
  apply (Haxis 0 (-1)); [reflexivity|left; reflexivity].
Defined.



(** ** The prologue of [Mult] *)

(** The reset loop acts on the two buffer arrays independently. *)
Lemma reset_buffers_fields d st :
  reset_buffers d st =
  {| f_orig := foldl (fun acc ip => alter_at (fun v => Vec.fill0 v) ip acc)
                 (f_orig st) (range (nrpatch d));
     f_transf := foldl (fun acc ip =>
                     alter_at (fun row => foldl (fun acc i => alter_at (fun v => Vec.fill0 v) i acc)
                                            row (range (nsweeps d))) ip acc)
                   (f_transf st) (range (nrpatch d));
     z := z st; trace := trace st |}.
Proof.
  unfold reset_buffers. generalize (range (nrpatch d)) as ips.
  intros ips. revert st. induction ips as [|ip ips IH]; intros st; simpl.
  - destruct st; reflexivity.
  - assert (Hinner : forall is_ st0,
      foldl (fun st i => set_f_transf
               (alter_at (alter_at Vec.fill0 i) ip (f_transf st)) st) st0 is_ =
      set_f_transf (foldl (fun acc i => alter_at (alter_at (fun v => Vec.fill0 v) i) ip acc)
                      (f_transf st0) is_) st0).
    { induction is_ as [|i is_ IHi]; intros st0; simpl.
      - destruct st0; reflexivity.
      - rewrite IHi. reflexivity. }
    rewrite Hinner, IH. simpl.
    rewrite (foldl_alter_inner (fun _ v => Vec.fill0 v)). reflexivity.
Qed.

Lemma scatter_source_fields d r st :
  scatter_source d r st =
  {| f_orig := foldl (fun acc ip =>
                   alter_at (fun _ => GetSubVector r (Dof2GlobalDof d ip)) ip acc)
                 (f_orig st) (range (nrpatch d));
     f_transf := f_transf st; z := z st; trace := trace st |}.
Proof.
  unfold scatter_source. generalize (range (nrpatch d)) as ips.
  intros ips. revert st. induction ips as [|ip ips IH]; intros st; simpl.
  - destruct st; reflexivity.
  - rewrite IH. reflexivity.
Qed.

(** The prologue in closed form. *)
Lemma Mult_prologue_closed d r st :
  constructed_shape d st ->
  Mult_prologue d r st =
  {| f_orig := imap (fun k _ => GetSubVector r (Dof2GlobalDof d (Z.of_nat k))) (f_orig st);
     f_transf := (fun row : list Vector => (fun v : Vector => Vec.zero (length v)) <$> row)
                 <$> f_transf st;
     z := Vec.zero (length (z st));
     trace := [] |}.
Proof.
  intros (Ho & Ht & Hrows).
  unfold Mult_prologue. rewrite scatter_source_fields, reset_buffers_fields. simpl.
  unfold range.
  rewrite !(foldl_alter_range (fun _ v => Vec.fill0 v)).
  rewrite (foldl_alter_range (fun ip _ => GetSubVector r (Dof2GlobalDof d ip))).
  rewrite (foldl_alter_range
             (fun _ row => foldl (fun acc i => alter_at (fun v => Vec.fill0 v) i acc) row
                             (Z.of_nat <$> seq 0 (Z.to_nat (nsweeps d))))).
  f_equal.
  - apply list_eq. intros k. rewrite !list_lookup_imap.
    destruct (f_orig st !! k) as [v|] eqn:Hk; simpl; [|reflexivity].
    apply lookup_lt_Some in Hk. case_decide; [reflexivity|lia].
  - apply list_eq. intros k. rewrite list_lookup_imap, list_lookup_fmap.
    destruct (f_transf st !! k) as [row|] eqn:Hk; simpl; [|reflexivity].
    pose proof (lookup_lt_Some _ _ _ Hk) as Hlt.
    rewrite Forall_lookup in Hrows. specialize (Hrows _ _ Hk).
    case_decide; [|lia]. f_equal.
    rewrite (foldl_alter_range (fun _ v => Vec.fill0 v)).
    apply list_eq. intros c. rewrite list_lookup_imap, list_lookup_fmap.
    destruct (row !! c) as [v|] eqn:Hc; simpl; [|reflexivity].
    apply lookup_lt_Some in Hc. case_decide; [reflexivity|lia].
Qed.

(** The constructor leaves the buffers in the shape [Mult] relies on. *)
Lemma DST_new_shape sv Pml omega ws nrl :
  constructed_shape (DST_new sv Pml omega ws nrl).1 (DST_new sv Pml omega ws nrl).2.
Proof.
  unfold constructed_shape, DST_new. simpl.
  rewrite !length_fmap, !length_range. split; [reflexivity|]. split; [reflexivity|].
  apply Forall_fmap, Forall_true. intros ip. simpl.
  rewrite length_fmap, length_range. reflexivity.
Qed.

Lemma at_fmap_range {A} (f : Z -> A) (n i : Z) :
  0 <= i < n -> at_ (f <$> range n) i = Some (f i).
Proof.
  intros Hi. unfold at_, range.
  assert ((i <? 0) = false) as -> by (apply Z.ltb_ge; lia).
  rewrite !list_lookup_fmap, lookup_seq_lt by lia. simpl.
  rewrite Z2Nat.id by lia. reflexivity.
Qed.

(** Every transfer buffer is created with twice the local true-DOF count. *)
Lemma DST_new_buffer_size sv Pml omega ws nrl ip l :
  let d := (DST_new sv Pml omega ws nrl).1 in
  let st := (DST_new sv Pml omega ws nrl).2 in
  0 <= ip < nrpatch d -> 0 <= l < nsweeps d ->
  length (transf_at st ip l) = Z.to_nat (2 * TrueVSize d ip) /\
  length (orig_at st ip) = Z.to_nat (2 * TrueVSize d ip).
Proof.
  intros d st Hip Hl. unfold transf_at, orig_at, st, DST_new. cbn [snd f_transf f_orig].
  fold d. rewrite !at_fmap_range by exact Hip. simpl.
  rewrite at_fmap_range by exact Hl. simpl.
  unfold Vec.zero. rewrite !length_replicate. split; reflexivity.
Qed.

Lemma toy_state_shape fill : constructed_shape toy (toy_state fill).
Proof.
  split; [reflexivity|]. split; [reflexivity|].
  repeat constructor.
Qed.

(** ** The zero residual *)

Lemma allzero_zero n : allzero (Vec.zero n).
Proof. apply Forall_replicate. reflexivity. Qed.

Lemma add_zero_allzero n v : allzero v -> Vec.add (Vec.zero n) v = Vec.zero n.
Proof.
  revert v. induction n as [|n IH]; intros v Hv; [reflexivity|].
  destruct Hv as [|x v Hx Hv]; [reflexivity|].
  subst x. change (Vec.zero (S n)) with (0%float :: Vec.zero n). simpl.
  rewrite (IH _ Hv). reflexivity.
Qed.

Lemma nth_zero n j : nth j (Vec.zero n) 0%float = 0%float.
Proof. revert j. induction n as [|n IH]; intros [|j]; simpl; auto. Qed.

Lemma GetSubVector_zero n dofs : GetSubVector (Vec.zero n) dofs = Vec.zero (length dofs).
Proof.
  unfold GetSubVector. induction dofs as [|j dofs IH]; [reflexivity|].
  change (Vec.zero (length (j :: dofs))) with (0%float :: Vec.zero (length dofs)).
  rewrite fmap_cons, IH, nth_zero. reflexivity.
Qed.

Lemma quiet_orig_at st ip : quiet st -> allzero (orig_at st ip).
Proof.
  intros [Ho _]. unfold orig_at, at_. destruct (ip <? 0); [constructor|].
  destruct (f_orig st !! Z.to_nat ip) as [v|] eqn:E; simpl; [|constructor].
  eapply Forall_lookup_1; eassumption.
Qed.

Lemma quiet_transf_at st ip l : quiet st -> allzero (transf_at st ip l).
Proof.
  intros [_ Ht]. unfold transf_at, at_. destruct (ip <? 0); [constructor|].
  destruct (f_transf st !! Z.to_nat ip) as [row|] eqn:E; simpl; [|constructor].
  destruct (l <? 0); [constructor|].
  destruct (row !! Z.to_nat l) as [v|] eqn:E'; simpl; [|constructor].
  eapply Forall_lookup_1; [|exact E']. eapply Forall_lookup_1; eassumption.
Qed.

Lemma quiet_local_residual d l ip st :
  quiet st -> local_residual d l ip st = Vec.zero (length (Dof2GlobalDof d ip)).
Proof.
  intros Hq. unfold local_residual.
  destruct (l =? 0).
  - rewrite (add_zero_allzero _ _ (quiet_orig_at st ip Hq)).
    apply add_zero_allzero, quiet_transf_at, Hq.
  - apply add_zero_allzero, quiet_transf_at, Hq.
Qed.

Lemma quiet_prologue d n st :
  constructed_shape d st -> quiet (Mult_prologue d (Vec.zero n) st).
Proof.
  intros Hshape. rewrite (Mult_prologue_closed _ _ _ Hshape). split; simpl.
  - apply Forall_lookup_2. intros k v. rewrite list_lookup_imap.
    destruct (f_orig st !! k); simpl; [|discriminate].
    intros [= <-]. rewrite GetSubVector_zero. apply allzero_zero.
  - apply Forall_fmap, Forall_true. intros row. simpl.
    apply Forall_fmap, Forall_true. intros v. simpl. apply allzero_zero.
Qed.

Section ZeroResidual.

Variable Norml2 : Vector -> float.
Hypothesis Norml2_zero : forall n, (Norml2 (Vec.zero n) <? threshold)%float = true.

(** With quiet buffers a whole list of visits is a list of skips. *)
Lemma quiet_visits_skip d l visits st :
  quiet st ->
  exists st',
    forM (visit_patch Norml2 d l) visits st = Done st' /\
    f_orig st' = f_orig st /\ f_transf st' = f_transf st /\ z st' = z st /\
    trace st' =
      trace st ++ ((fun t => EvVisit l (GetPatchId d [t.1.2; t.2])) <$> visits).
Proof.
  revert st. induction visits as [|[[s i] j] visits IH]; intros st Hq.
  - exists st. simpl. rewrite app_nil_r. repeat split; reflexivity.
  - cbn [forM]. unfold visit_patch at 1.
    rewrite (quiet_local_residual _ _ _ _ Hq), Norml2_zero. simpl.
    destruct (IH (log (EvVisit l (GetPatchId d [i; j])) st)) as (st' & Hrun & Ho & Ht & Hz & Htr).
    { exact Hq. }
    exists st'. split; [exact Hrun|]. repeat split; try assumption.
    rewrite Htr. simpl. rewrite <- app_assoc. reflexivity.
Qed.

End ZeroResidual.

(** C6. On the all-zero residual [Mult] returns the all-zero vector: the
    output is zeroed, every patch of the grid is visited and skipped, and
    nothing else happens. *)
Theorem C6_zero_residual_gives_zero
    (Norml2 : Vector -> float) (d : DST) (n : nat) (st : State) :
  (forall m, (Norml2 (Vec.zero m) <? threshold)%float = true) ->
  constructed_shape d st ->
  exists st',
    Mult Norml2 d (Vec.zero n) st = Done st' /\
    z st' = Vec.zero (length (z st)) /\
    trace st' = (fun t => EvVisit 0 (GetPatchId d [t.1.2; t.2]))
                  <$> sweep_order 0 (nxyz d 0) (nxyz d 1).
Proof.
  intros Hnorm Hshape.
  destruct (quiet_visits_skip Norml2 Hnorm d 0 (sweep_order 0 (nxyz d 0) (nxyz d 1))
              (Mult_prologue d (Vec.zero n) st) (quiet_prologue d n st Hshape))
    as (st' & Hrun & _ & _ & Hz & Htr).
  exists st'. split; [|split].
  - unfold Mult. change (range 1) with [0]. simpl. unfold sweep. rewrite Hrun. reflexivity.
  - rewrite Hz. rewrite (Mult_prologue_closed _ _ _ Hshape). reflexivity.
  - rewrite Htr. rewrite (Mult_prologue_closed _ _ _ Hshape). reflexivity.
Qed.

(** The Euclidean norm of the concrete instance vanishes on zero vectors. *)
Lemma toy_norm_zero m : (toy_norm (Vec.zero m) <? threshold)%float = true.
Proof.
  unfold toy_norm.
  assert (E : foldl (fun a x => (a + x * x)%float) 0%float (Vec.zero m) = 0%float).
  { induction m as [|m IH]; [reflexivity|]. exact IH. }
  rewrite E. reflexivity.
Qed.

Lemma C6_zero_residual_gives_zero_witness :
  exists st',
    Mult toy_norm toy (Vec.zero 2) (toy_state 7) = Done st' /\
    z st' = Vec.zero (length (z (toy_state 7))) /\
    trace st' = (fun t => EvVisit 0 (GetPatchId toy [t.1.2; t.2]))
                  <$> sweep_order 0 (nxyz toy 0) (nxyz toy 1).
Proof.
  apply (C6_zero_residual_gives_zero toy_norm toy 2 (toy_state 7)).
  - exact toy_norm_zero.
  - exact (toy_state_shape 7).
Defined.

(** ** Repeated applications *)

Lemma TransferSources_shape sh d l ip0 sol0 st st' :
  shape st = sh -> TransferSources d l ip0 sol0 st = Done st' -> shape st' = sh.
Proof.
  unfold TransferSources. destruct (Getijk d ip0) as [[i0 j0] k0].
  apply (forM_invariant (fun s => shape s = sh)). intros i s s' Hs.
  destruct ((i0 + i <? 0) || (i0 + i >=? nxyz d 0)); [intros [= <-]; exact Hs|].
  revert s s' Hs. apply (forM_invariant (fun s => shape s = sh)). intros j s s' Hs.
  destruct ((i =? 0) && (j =? 0)); [intros [= <-]; exact Hs|].
  destruct ((j0 + j <? 0) || (j0 + j >=? nxyz d 1)); [intros [= <-]; exact Hs|].
  apply deliver_shape. exact Hs.
Qed.

Lemma visit_patch_shape sh Norml2 d l sij st st' :
  shape st = sh -> visit_patch Norml2 d l sij st = Done st' -> shape st' = sh.
Proof.
  destruct sij as [[s i] j]. unfold visit_patch. intros Hst.
  destruct (Norml2 _ <? threshold)%float.
  - intros [= <-]. exact Hst.
  - destruct (TransferSources _ _ _ _ _) as [st1|msg] eqn:Ht; simpl; [|discriminate].
    intros [= <-]. apply (TransferSources_shape sh) in Ht; [|exact Hst].
    rewrite <- Ht. unfold shape. simpl. rewrite length_add. reflexivity.
Qed.

Lemma shape_prologue d r st :
  constructed_shape d st -> shape (Mult_prologue d r st) = shape st.
Proof.
  intros Hshape. rewrite (Mult_prologue_closed _ _ _ Hshape).
  unfold shape. simpl. rewrite length_imap. unfold Vec.zero. rewrite length_replicate.
  f_equal. f_equal. rewrite <- list_fmap_compose.
  apply list_fmap_ext. intros _ row _. simpl. rewrite <- list_fmap_compose.
  apply list_fmap_ext. intros _ v _. simpl. apply length_replicate.
Qed.

Lemma constructed_shape_by_shape d st st' :
  shape st = shape st' -> constructed_shape d st -> constructed_shape d st'.
Proof.
  unfold shape. intros [= Ho Ht Hz] (H1 & H2 & H3).
  split; [congruence|]. split.
  - rewrite <- H2. apply (f_equal length) in Ht. rewrite !length_fmap in Ht. congruence.
  - assert (Hrows : forall ft : list (list Vector),
      Forall (fun row => length row = Z.to_nat (nsweeps d)) ft <->
      Forall (fun lens => length lens = Z.to_nat (nsweeps d))
             ((fun row : list Vector => length <$> row) <$> ft)).
    { intros ft. rewrite Forall_fmap. apply Forall_proper; [|reflexivity].
      intros row. simpl. rewrite length_fmap. reflexivity. }
    apply Hrows. rewrite <- Ht. apply Hrows. exact H3.
Qed.

(** The prologue wipes whatever an earlier application left behind. *)
Lemma Mult_prologue_by_shape d r st st' :
  constructed_shape d st -> shape st = shape st' ->
  Mult_prologue d r st = Mult_prologue d r st'.
Proof.
  intros Hshape Heq.
  pose proof (constructed_shape_by_shape _ _ _ Heq Hshape) as Hshape'.
  rewrite (Mult_prologue_closed _ _ _ Hshape), (Mult_prologue_closed _ _ _ Hshape').
  unfold shape in Heq. injection Heq as Ho Ht Hz.
  f_equal.
  - apply imap_by_length. exact Ho.
  - assert (Hvia : forall ft : list (list Vector),
      (fun row : list Vector => (fun v : Vector => Vec.zero (length v)) <$> row) <$> ft =
      (fun lens : list nat => Vec.zero <$> lens)
        <$> ((fun row : list Vector => length <$> row) <$> ft)).
    { intros ft. rewrite <- list_fmap_compose. apply list_fmap_ext.
      intros _ row _. simpl. rewrite <- list_fmap_compose. reflexivity. }
    rewrite !Hvia, Ht. reflexivity.
  - now rewrite Hz.
Qed.

Lemma Mult_ignores_stale_content Norml2 d r st st' :
  constructed_shape d st -> shape st = shape st' ->
  Mult Norml2 d r st = Mult Norml2 d r st'.
Proof.
  intros Hshape Heq. unfold Mult.
  rewrite (Mult_prologue_by_shape _ _ _ _ Hshape Heq). reflexivity.
Qed.

Lemma Mult_shape Norml2 d r st st' :
  constructed_shape d st -> Mult Norml2 d r st = Done st' -> shape st' = shape st.
Proof.
  intros Hshape. unfold Mult.
  apply (forM_invariant (fun s => shape s = shape st)).
  - intros l s s' Hs. unfold sweep.
    apply (forM_invariant (fun s => shape s = shape st)); [|exact Hs].
    intros x s0 s0'. apply visit_patch_shape.
  - apply shape_prologue, Hshape.
Qed.

(** C9. A second call of [Mult] on the same object with the same residual
    returns exactly what the first call returned, whatever the first call
    left in the buffers and whatever the caller's output vector holds on
    entry (its size being the operator's). *)
Theorem C9_repeated_application_is_identical
    (Norml2 : Vector -> float) (d : DST) (r zin : Vector) (st st1 : State) :
  constructed_shape d st ->
  length zin = length (z st) ->
  Mult Norml2 d r st = Done st1 ->
  Mult Norml2 d r (set_z zin st1) = Done st1.
Proof.
  intros Hshape Hz Hrun.
  rewrite <- Hrun. symmetry.
  apply Mult_ignores_stale_content; [exact Hshape|].
  pose proof (Mult_shape _ _ _ _ _ Hshape Hrun) as Hsh.
  unfold shape in *. simpl. injection Hsh as Ho Ht Hz1.
  rewrite Ho, Ht, Hz. reflexivity.
Qed.

Lemma C9_repeated_application_is_identical_witness :
  exists st1,
    Mult toy_norm toy [1%float; 0%float] (toy_state 7) = Done st1 /\
    Mult toy_norm toy [1%float; 0%float] (set_z [3%float; 4%float] st1) = Done st1.
Proof.
  eexists. split; [vm_compute; reflexivity|].
  apply (C9_repeated_application_is_identical toy_norm toy _ _ (toy_state 7)).
  - exact (toy_state_shape 7).
  - reflexivity.
  - vm_compute. reflexivity.
Defined.

(** ** The constructor *)

(** C10. Whatever the arguments of the constructor, the partition is
    requested as a 2 x 2 x 1 grid (kind 2), with the caller's number of
    layers as the only argument passed on; with a partitioner that returns
    the grid it is asked for, every object has [nxyz = (2,2,1)] and four
    patches. *)
Theorem C10_patch_grid_is_hardcoded
    (sv : Services) (Pmllength_ : Z -> Z -> float) (omega_ : float)
    (ws_ : Coefficient) (nrlayers_ : Z) :
  honours_request sv ->
  let d := (DST_new sv Pmllength_ omega_ ws_ nrlayers_).1 in
  let povlp := new_MeshPartition sv 2 2 2 1 nrlayers_ in
  nxyz d = mp_nxyz povlp /\ nrpatch d = mp_nrpatch povlp /\
  subdomains d = mp_subdomains povlp /\
  nxyz d 0 = 2 /\ nxyz d 1 = 2 /\ nxyz d 2 = 1 /\ nrpatch d = 4 /\
  nrlayers d = nrlayers_.
Proof.
  intros Hreq d povlp.
  destruct (Hreq 2 2 2 1 nrlayers_) as (H0 & H1 & H2 & H3).
  repeat split; assumption || reflexivity.
Qed.

Lemma C10_patch_grid_is_hardcoded_witness :
  let d := (DST_new grid_services (fun _ _ => 1%float) 1%float (fun _ => 1%float) 5).1 in
  let povlp := new_MeshPartition grid_services 2 2 2 1 5 in
  nxyz d = mp_nxyz povlp /\ nrpatch d = mp_nrpatch povlp /\
  subdomains d = mp_subdomains povlp /\
  nxyz d 0 = 2 /\ nxyz d 1 = 2 /\ nxyz d 2 = 1 /\ nrpatch d = 4 /\
  nrlayers d = 5.
Proof.
  apply (C10_patch_grid_is_hardcoded grid_services (fun _ _ => 1%float) 1%float
           (fun _ => 1%float) 5).
  intros kind nx ny nz nl. simpl. repeat split; reflexivity.
Defined.

(** * Further properties *)

(** ** Patch coordinates *)

(** X1. [Getijk] recovers the grid coordinates of a patch from its row-major
    id, and with them the coordinates handed to [GetPatchId] when the
    partition numbers its patches that way. *)
Theorem X1_Getijk_inverts_row_major (d : DST) (i j k : Z) :
  0 <= i < nxyz d 0 -> 0 <= j < nxyz d 1 -> 0 <= k ->
  Getijk d (row_major d i j k) = (i, j, k) /\
  (dim d = 2 -> k = 0 ->
   (forall a b, subdomains d a b 0 = row_major d a b 0) ->
   Getijk d (GetPatchId d [i; j]) = (i, j, 0)).
Proof.
  intros Hi Hj Hk.
  assert (Hget : forall i j k, 0 <= i < nxyz d 0 -> 0 <= j < nxyz d 1 -> 0 <= k ->
            Getijk d (row_major d i j k) = (i, j, k)).
  { clear. intros i j k Hi Hj Hk. unfold Getijk, row_major.
    set (nx := nxyz d 0) in *. set (ny := nxyz d 1) in *.
    assert (Hm : 0 < nx * ny) by nia.
    assert (Hr : 0 <= i + nx * j < nx * ny) by nia.
    assert (Hq : Z.quot (i + nx * j + nx * ny * k) (nx * ny) = k).
    { rewrite Z.quot_div_nonneg by nia.
      symmetry. apply (Z.div_unique _ _ k (i + nx * j)); [left; exact Hr|ring]. }
    rewrite Hq.
    replace (i + nx * j + nx * ny * k - k * nx * ny) with (i + nx * j) by ring.
    rewrite Z.quot_div_nonneg, Z.rem_mod_nonneg by nia.
    f_equal. f_equal.
    - symmetry. apply (Z.mod_unique _ _ j i); [left; lia|ring].
    - symmetry. apply (Z.div_unique _ _ j i); [left; lia|ring]. }
  split; [apply Hget; assumption|].
  intros Hdim -> Hsub. unfold GetPatchId. rewrite Hdim. simpl.
  rewrite Hsub. apply Hget; [assumption|assumption|lia].
Qed.

Lemma X1_Getijk_inverts_row_major_witness :
  Getijk toy (row_major toy 1 1 0) = (1, 1, 0) /\
  Getijk toy (GetPatchId toy [1; 1]) = (1, 1, 0).
Proof.
  destruct (X1_Getijk_inverts_row_major toy 1 1 0) as [H1 H2];
    [simpl; lia|simpl; lia|lia|].
  split; [exact H1|]. apply H2; [reflexivity|reflexivity|].
  intros a b. unfold row_major. simpl. lia.
Defined.

(** X2. For a non-negative id on a grid with [nx, ny > 0], [Getijk] returns
    coordinates inside the grid, [0 <= i < nx] and [0 <= j < ny], that
    recompose to the id. *)
Theorem X2_Getijk_in_range (d : DST) (ip : Z) :
  0 < nxyz d 0 -> 0 < nxyz d 1 -> 0 <= ip ->
  let '(i, j, k) := Getijk d ip in
  0 <= i < nxyz d 0 /\ 0 <= j < nxyz d 1 /\ 0 <= k /\ row_major d i j k = ip.
Proof.
  intros Hx Hy Hip. unfold Getijk, row_major.
  set (nx := nxyz d 0) in *. set (ny := nxyz d 1) in *.
  assert (Hm : 0 < nx * ny) by nia.
  rewrite (Z.quot_div_nonneg ip) by lia.
  set (k := ip / (nx * ny)).
  assert (Hk : 0 <= k) by (apply Z.div_pos; lia).
  assert (Hr : ip - k * nx * ny = ip mod (nx * ny)).
  { rewrite Z.mod_eq by lia. fold k. ring. }
  rewrite Hr.
  pose proof (Z.mod_pos_bound ip (nx * ny) Hm) as Hb.
  set (r := ip mod (nx * ny)) in *.
  rewrite Z.quot_div_nonneg, Z.rem_mod_nonneg by lia.
  pose proof (Z.mod_pos_bound r nx Hx) as Hi.
  pose proof (Z.div_mod r nx ltac:(lia)) as Hdm.
  assert (Hj : 0 <= r / nx < ny).
  { split; [apply Z.div_pos; lia|apply Z.div_lt_upper_bound; lia]. }
  split; [exact Hi|]. split; [exact Hj|]. split; [exact Hk|].
  set (q := r / nx) in *. set (m := r mod nx) in *. clearbody q m r k.
  lia.
Qed.

Lemma X2_Getijk_in_range_witness :
  let '(i, j, k) := Getijk toy 3 in
  0 <= i < 2 /\ 0 <= j < 2 /\ 0 <= k /\ row_major toy i j k = 3.
Proof.
  apply (X2_Getijk_in_range toy 3); simpl; lia.
Defined.

(** ** The other sweeps *)

Lemma front_j_front_of l nx ny s i j :
  j = front_j l nx ny s i <-> s = front_of l nx ny i j.
Proof.
  unfold front_j, front_of.
  destruct l as [|[p|[p|p|]|]|p]; lia.
Qed.

Lemma elem_of_sweep_order_front l nx ny s i j :
  (s, i, j) ∈ sweep_order l nx ny <->
  0 <= i < nx /\ 0 <= j < ny /\ s = front_of l nx ny i j /\ 0 <= s < nx + ny - 1.
Proof.
  rewrite elem_of_sweep_order, front_j_front_of. tauto.
Qed.

(** Within any sweep no patch comes twice, and a patch on an earlier front
    comes earlier. *)
Lemma sweep_order_patches_NoDup l nx ny :
  NoDup ((fun t => (t.1.2, t.2)) <$> sweep_order l nx ny).
Proof.
  apply NoDup_fmap_2_strong; [|apply sorted_NoDup, sweep_order_sorted].
  intros [[s i] j] [[s' i'] j'] H1%elem_of_sweep_order_front
         H2%elem_of_sweep_order_front [= -> ->].
  f_equal. f_equal. lia.
Qed.

Lemma sweep_order_by_front l nx ny i j i' j' :
  (front_of l nx ny i' j', i', j') ∈ sweep_order l nx ny ->
  (front_of l nx ny i j, i, j) ∈ sweep_order l nx ny ->
  front_of l nx ny i' j' < front_of l nx ny i j ->
  precedes (front_of l nx ny i' j', i', j') (front_of l nx ny i j, i, j)
           (sweep_order l nx ny).
Proof.
  intros H' H Hlt. apply sorted_precedes; [apply sweep_order_sorted|exact H'|exact H|].
  left. exact Hlt.
Qed.

(** X3. Sweep 1, of sign [(-1,+1)], reaches every patch of an [nx] by [ny]
    grid exactly once, on the front [s = j + (nx-1-i)], and every patch
    upstream of [(i,j)] (larger or equal [i], smaller or equal [j]) before
    [(i,j)]. *)
Theorem X3_sweep1_order (nx ny : Z) :
  (forall i j, 0 <= i < nx -> 0 <= j < ny ->
     (j + (nx - 1 - i), i, j) ∈ sweep_order 1 nx ny) /\
  (forall s i j, (s, i, j) ∈ sweep_order 1 nx ny ->
     0 <= i < nx /\ 0 <= j < ny /\ s = j + (nx - 1 - i)) /\
  NoDup ((fun t => (t.1.2, t.2)) <$> sweep_order 1 nx ny) /\
  (forall i j i' j',
     0 <= i < nx -> 0 <= j < ny -> 0 <= i' < nx -> 0 <= j' < ny ->
     upstream 1 i' j' i j ->
     precedes (j' + (nx - 1 - i'), i', j') (j + (nx - 1 - i), i, j)
              (sweep_order 1 nx ny)).
Proof.
  assert (Hin : forall i j, 0 <= i < nx -> 0 <= j < ny ->
                  (j + (nx - 1 - i), i, j) ∈ sweep_order 1 nx ny).
  { intros i j Hi Hj. apply elem_of_sweep_order_front. simpl. lia. }
  split; [exact Hin|]. split; [|split; [apply sweep_order_patches_NoDup|]].
  - intros s i j H%elem_of_sweep_order_front. simpl in H. lia.
  - intros i j i' j' Hi Hj Hi' Hj' (Hu1 & Hu2 & Hne). simpl in Hu1, Hu2.
    apply sorted_precedes; [apply sweep_order_sorted|apply Hin; lia|apply Hin; lia|].
    left. simpl.
    assert (i' <> i \/ j' <> j) by (destruct (Z.eq_dec i' i); [right|left]; congruence).
    lia.
Qed.

Lemma X3_sweep1_order_witness :
  precedes (0, 1, 0) (2, 0, 1) (sweep_order 1 2 2) /\
  precedes (1, 0, 0) (2, 0, 1) (sweep_order 1 2 2).
Proof.
  destruct (X3_sweep1_order 2 2) as (_ & _ & _ & Hup).
  split; [apply (Hup 0 1 1 0)|apply (Hup 0 1 0 0)]; try lia;
    (split; [simpl; lia|split; [simpl; lia|discriminate]]).
Defined.

(** X4. Sweep 3, of sign [(-1,-1)], reaches every patch of the grid exactly
    once, on the front [s = (nx-1-i) + (ny-1-j)], and every patch upstream
    of [(i,j)] (larger or equal [i] and [j]) before [(i,j)]. *)
Theorem X4_sweep3_order (nx ny : Z) :
  (forall i j, 0 <= i < nx -> 0 <= j < ny ->
     ((nx - 1 - i) + (ny - 1 - j), i, j) ∈ sweep_order 3 nx ny) /\
  (forall s i j, (s, i, j) ∈ sweep_order 3 nx ny ->
     0 <= i < nx /\ 0 <= j < ny /\ s = (nx - 1 - i) + (ny - 1 - j)) /\
  NoDup ((fun t => (t.1.2, t.2)) <$> sweep_order 3 nx ny) /\
  (forall i j i' j',
     0 <= i < nx -> 0 <= j < ny -> 0 <= i' < nx -> 0 <= j' < ny ->
     upstream 3 i' j' i j ->
     precedes ((nx - 1 - i') + (ny - 1 - j'), i', j') ((nx - 1 - i) + (ny - 1 - j), i, j)
              (sweep_order 3 nx ny)).
Proof.
  assert (Hin : forall i j, 0 <= i < nx -> 0 <= j < ny ->
                  ((nx - 1 - i) + (ny - 1 - j), i, j) ∈ sweep_order 3 nx ny).
  { intros i j Hi Hj. apply elem_of_sweep_order_front. simpl. lia. }
  split; [exact Hin|]. split; [|split; [apply sweep_order_patches_NoDup|]].
  - intros s i j H%elem_of_sweep_order_front. simpl in H. lia.
  - intros i j i' j' Hi Hj Hi' Hj' (Hu1 & Hu2 & Hne). simpl in Hu1, Hu2.
    apply sorted_precedes; [apply sweep_order_sorted|apply Hin; lia|apply Hin; lia|].
    left. simpl.
    assert (i' <> i \/ j' <> j) by (destruct (Z.eq_dec i' i); [right|left]; congruence).
    lia.
Qed.

Lemma X4_sweep3_order_witness :
  precedes (0, 1, 1) (2, 0, 0) (sweep_order 3 2 2) /\
  precedes (1, 0, 1) (2, 0, 0) (sweep_order 3 2 2).
Proof.
  destruct (X4_sweep3_order 2 2) as (_ & _ & _ & Hup).
  split; [apply (Hup 0 0 1 1)|apply (Hup 0 0 0 1)]; try lia;
    (split; [simpl; lia|split; [simpl; lia|discriminate]]).
Defined.

(** X5. Sweep 2, of sign [(+1,-1)], derives [j] as [nx+i-s-1]: it reaches the
    patch [(i,j)] on the front [s = nx-1+i-j], hence exactly the patches
    with [j-i <= nx-1] and [i-j <= ny-1], each once and upstream patches
    first.  It covers the whole grid when [nx = ny], and only then. *)
Theorem X5_sweep2_order (nx ny : Z) :
  0 < nx -> 0 < ny ->
  (forall i j, 0 <= i < nx -> 0 <= j < ny ->
     (exists s, (s, i, j) ∈ sweep_order 2 nx ny) <-> j - i <= nx - 1 /\ i - j <= ny - 1) /\
  (forall s i j, (s, i, j) ∈ sweep_order 2 nx ny ->
     0 <= i < nx /\ 0 <= j < ny /\ s = nx - 1 + i - j) /\
  NoDup ((fun t => (t.1.2, t.2)) <$> sweep_order 2 nx ny) /\
  (forall s i j s' i' j',
     (s, i, j) ∈ sweep_order 2 nx ny -> (s', i', j') ∈ sweep_order 2 nx ny ->
     upstream 2 i' j' i j ->
     precedes (s', i', j') (s, i, j) (sweep_order 2 nx ny)) /\
  ((forall i j, 0 <= i < nx -> 0 <= j < ny -> exists s, (s, i, j) ∈ sweep_order 2 nx ny)
   <-> nx = ny).
Proof.
  intros Hx Hy.
  assert (Hchar : forall i j, 0 <= i < nx -> 0 <= j < ny ->
     (exists s, (s, i, j) ∈ sweep_order 2 nx ny) <-> j - i <= nx - 1 /\ i - j <= ny - 1).
  { intros i j Hi Hj. split.
    - intros [s H%elem_of_sweep_order_front]. simpl in H. lia.
    - intros Hb. exists (nx - 1 + i - j). apply elem_of_sweep_order_front. simpl. lia. }
  split; [exact Hchar|]. split; [|split; [apply sweep_order_patches_NoDup|split]].
  - intros s i j H%elem_of_sweep_order_front. simpl in H. lia.
  - intros s i j s' i' j' H H' (Hu1 & Hu2 & Hne). simpl in Hu1, Hu2.
    apply sorted_precedes; [apply sweep_order_sorted|exact H'|exact H|].
    apply elem_of_sweep_order_front in H, H'. simpl in H, H'.
    left. simpl.
    assert (i' <> i \/ j' <> j) by (destruct (Z.eq_dec i' i); [right|left]; congruence).
    lia.
  - split.
    + intros Hall.
      assert (E1 : exists s, (s, 0, ny - 1) ∈ sweep_order 2 nx ny) by (apply Hall; lia).
      assert (E2 : exists s, (s, nx - 1, 0) ∈ sweep_order 2 nx ny) by (apply Hall; lia).
      apply Hchar in E1; [|lia|lia]. apply Hchar in E2; [|lia|lia]. lia.
    + intros -> i j Hi Hj. apply Hchar; lia.
Qed.

Lemma X5_sweep2_order_witness :
  (exists s, (s, 0, 0) ∈ sweep_order 2 2 3) /\
  ~ (exists s, (s, 0, 2) ∈ sweep_order 2 2 3) /\
  (forall i j, 0 <= i < 2 -> 0 <= j < 2 -> exists s, (s, i, j) ∈ sweep_order 2 2 2).
Proof.
  destruct (X5_sweep2_order 2 3 ltac:(lia) ltac:(lia)) as (Hchar & _).
  destruct (X5_sweep2_order 2 2 ltac:(lia) ltac:(lia)) as (_ & _ & _ & _ & Hall).
  split; [apply (Hchar 0 0); lia|].
  split; [rewrite (Hchar 0 2) by lia; lia|].
  apply Hall. reflexivity.
Defined.

(** X6. In each of the four sweeps the front of the neighbour at offset
    [(di,dj)] lies [ddot] fronts after the front of the patch, [ddot] being
    the dot product of the offset with the sweep's sign vector: a transfer
    that passes Rule 1 for the running sweep goes to a patch the sweep
    reaches later. *)
Theorem X6_aligned_neighbour_comes_later (l nx ny s i j s' di dj : Z) :
  0 <= l <= 3 ->
  (s, i, j) ∈ sweep_order l nx ny ->
  (s', i + di, j + dj) ∈ sweep_order l nx ny ->
  s' - s = sweeps l 0 * di + sweeps l 1 * dj /\
  (aligned l di dj = true ->
   precedes (s, i, j) (s', i + di, j + dj) (sweep_order l nx ny)).
Proof.
  intros Hl H H'.
  assert (Hd : s' - s = sweeps l 0 * di + sweeps l 1 * dj).
  { apply elem_of_sweep_order_front in H, H'.
    assert (l = 0 \/ l = 1 \/ l = 2 \/ l = 3) as [->|[->|[->| ->]]] by lia;
      simpl in *; lia. }
  split; [exact Hd|].
  unfold aligned. intros Hal%Z.ltb_lt.
  apply sorted_precedes; [apply sweep_order_sorted|exact H|exact H'|].
  left. simpl. lia.
Qed.

Lemma X6_aligned_neighbour_comes_later_witness :
  precedes (0, 0, 0) (2, 1, 1) (sweep_order 0 2 2).
Proof.
  apply (X6_aligned_neighbour_comes_later 0 2 2 0 0 0 2 1 1);
    [lia|apply elem_of_sweep_order_front; simpl; lia
        |apply elem_of_sweep_order_front; simpl; lia|reflexivity].
Defined.

(** ** What [TransferSources] does and does not touch *)

Lemma deliver_frame sweep ip0 ip1 i j res1 ls st st' :
  deliver sweep ip0 ip1 i j res1 ls st = Done st' ->
  f_orig st' = f_orig st /\ z st' = z st.
Proof.
  rewrite deliver_first_aligned.
  destruct (first_aligned i j ls); [|intros [= <-]; split; reflexivity].
  destruct (Nat.eqb _ _); [|discriminate].
  intros [= <-]. split; reflexivity.
Qed.

Lemma TransferSources_frame d sweep ip0 sol0 st st' :
  TransferSources d sweep ip0 sol0 st = Done st' ->
  f_orig st' = f_orig st /\ z st' = z st.
Proof.
  unfold TransferSources. destruct (Getijk d ip0) as [[i0 j0] k0].
  apply (forM_invariant (fun s => f_orig s = f_orig st /\ z s = z st)); [|split; reflexivity].
  intros i s s' Hs.
  destruct ((i0 + i <? 0) || (i0 + i >=? nxyz d 0)); [intros [= <-]; exact Hs|].
  revert s s' Hs.
  apply (forM_invariant (fun s => f_orig s = f_orig st /\ z s = z st)).
  intros j s s' Hs.
  destruct ((i =? 0) && (j =? 0)); [intros [= <-]; exact Hs|].
  destruct ((j0 + j <? 0) || (j0 + j >=? nxyz d 1)); [intros [= <-]; exact Hs|].
  intros [Ho Hz]%deliver_frame. destruct Hs. split; congruence.
Qed.

(** X7. A finished [TransferSources] has written to transfer buffers only:
    the original sources and the output vector are as before, and every
    buffer has kept its size. *)
Theorem X7_TransferSources_frame (d : DST) (sweep ip0 : Z) (sol0 : Vector)
    (st st' : State) :
  TransferSources d sweep ip0 sol0 st = Done st' ->
  f_orig st' = f_orig st /\ z st' = z st /\
  (forall ip l, length (transf_at st' ip l) = length (transf_at st ip l)).
Proof.
  intros Hrun. destruct (TransferSources_frame _ _ _ _ _ _ Hrun) as [Ho Hz].
  split; [exact Ho|]. split; [exact Hz|].
  intros ip l. apply shape_transf_length.
  eapply TransferSources_shape; [reflexivity|exact Hrun].
Qed.

Lemma X7_TransferSources_frame_witness :
  exists st',
    TransferSources toy 0 0 [1%float; 0%float] (toy_state 7) = Done st' /\
    f_orig st' = f_orig (toy_state 7) /\ z st' = z (toy_state 7) /\
    (forall ip l, length (transf_at st' ip l) = length (transf_at (toy_state 7) ip l)).
Proof.
  eexists. split; [vm_compute; reflexivity|].
  apply (X7_TransferSources_frame toy 0 0 [1%float; 0%float] (toy_state 7)).
  vm_compute. reflexivity.
Defined.

(** X8. A finished [TransferSources] has made one delivery for each
    neighbour inside the grid whose offset is aligned with some sweep of
    the scan, in loop order and to the first such sweep, and no other:
    never to the patch itself, never outside the grid, never to a sweep
    before the current one or against the offset. *)
Theorem X8_TransferSources_deliveries (d : DST) (sweep ip0 : Z) (sol0 : Vector)
    (st st' : State) :
  TransferSources d sweep ip0 sol0 st = Done st' ->
  trace st' = trace st ++ omap (delivery_event d sweep ip0) offsets9 /\
  (forall ij l l0 ip0' ip1,
     delivery_event d sweep ip0 ij = Some (EvTransfer l0 ip0' ip1 l) ->
     ij <> (0, 0) /\
     0 <= (Getijk d ip0).1.1 + ij.1 < nxyz d 0 /\
     0 <= (Getijk d ip0).1.2 + ij.2 < nxyz d 1 /\
     ip1 = GetPatchId d [(Getijk d ip0).1.1 + ij.1; (Getijk d ip0).1.2 + ij.2] /\
     sweep <= l < nsweeps d /\ aligned l ij.1 ij.2 = true /\
     first_aligned ij.1 ij.2 (sweeps_from d sweep) = Some l).
Proof.
  intros Hrun. split.
  - apply TransferSources_trace with (sol0 := sol0). exact Hrun.
  - intros [i j] l l0 ip0' ip1. unfold delivery_event. cbn [fst snd].
    destruct ((_ <? 0) || (_ >=? nxyz d 0)) eqn:Ei; [discriminate|].
    destruct ((i =? 0) && (j =? 0)) eqn:E0; [discriminate|].
    destruct ((_ <? 0) || (_ >=? nxyz d 1)) eqn:Ej; [discriminate|].
    destruct (first_aligned i j (sweeps_from d sweep)) as [l'|] eqn:Hl; [|discriminate].
    simpl. intros [= <- <- <- <-].
    apply orb_false_elim in Ei as [Ei1 Ei2]. apply orb_false_elim in Ej as [Ej1 Ej2].
    apply Z.ltb_ge in Ei1, Ej1. rewrite Z.geb_leb in Ei2, Ej2.
    apply Z.leb_gt in Ei2, Ej2.
    destruct (first_aligned_smallest _ _ _ _ Hl) as (l1 & l2 & Hls & Hal & _).
    assert (Hin : l' ∈ sweeps_from d sweep).
    { rewrite Hls. apply elem_of_app. right. left. }
    apply sweeps_from_range in Hin.
    repeat split; try lia; try assumption.
    intros [= -> ->]. discriminate.
Qed.

Lemma X8_TransferSources_deliveries_witness :
  exists st',
    TransferSources toy 0 0 [1%float; 0%float] (toy_state 0) = Done st' /\
    trace st' = [EvTransfer 0 0 2 0; EvTransfer 0 0 1 0; EvTransfer 0 0 3 0].
Proof.
  eexists. split; [vm_compute; reflexivity|].
  destruct (X8_TransferSources_deliveries toy 0 0 [1%float; 0%float] (toy_state 0) _
              ltac:(vm_compute; reflexivity)) as [Htr _].
  exact Htr.
Defined.

(** ** What an application leaves behind *)

Lemma forM_invariant_in {A S} (I : S -> Prop) (body : A -> S -> outcome S) xs :
  (forall x s s', x ∈ xs -> I s -> body x s = Done s' -> I s') ->
  forall s s', I s -> forM body xs s = Done s' -> I s'.
Proof.
  induction xs as [|x xs IH]; intros Hbody s s' Hs; simpl.
  - intros [= <-]. exact Hs.
  - destruct (body x s) as [s1|msg] eqn:Hx; simpl; [|discriminate].
    apply IH.
    + intros y t t' Hy. apply Hbody. right. exact Hy.
    + eapply Hbody; [left|exact Hs|exact Hx].
Qed.

Lemma visit_patch_f_orig Norml2 d l sij st st' :
  visit_patch Norml2 d l sij st = Done st' -> f_orig st' = f_orig st.
Proof.
  destruct sij as [[s i] j]. unfold visit_patch.
  destruct (Norml2 _ <? threshold)%float; [intros [= <-]; reflexivity|].
  destruct (TransferSources _ _ _ _ _) as [st1|msg] eqn:Ht; simpl; [|discriminate].
  intros [= <-]. apply TransferSources_frame in Ht as [Ho _]. exact Ho.
Qed.

Lemma Mult_f_orig Norml2 d r st st' :
  Mult Norml2 d r st = Done st' -> f_orig st' = f_orig (Mult_prologue d r st).
Proof.
  unfold Mult.
  apply (forM_invariant (fun s => f_orig s = f_orig (Mult_prologue d r st))); [|reflexivity].
  intros l s s' Hs. unfold sweep.
  apply (forM_invariant (fun s => f_orig s = f_orig (Mult_prologue d r st))); [|exact Hs].
  intros x s0 s0' Hs0 Hv. rewrite (visit_patch_f_orig _ _ _ _ _ _ Hv). exact Hs0.
Qed.

(** X9. When [Mult] returns, the original-source buffer of every patch holds
    the entries of the input residual at the patch's global indices. *)
Theorem X9_Mult_leaves_restricted_residual
    (Norml2 : Vector -> float) (d : DST) (r : Vector) (st st' : State) (ip : Z) :
  constructed_shape d st ->
  Mult Norml2 d r st = Done st' ->
  0 <= ip < nrpatch d ->
  orig_at st' ip = GetSubVector r (Dof2GlobalDof d ip).
Proof.
  intros Hshape Hrun Hip.
  unfold orig_at. rewrite (Mult_f_orig _ _ _ _ _ Hrun).
  rewrite (Mult_prologue_closed _ _ _ Hshape). simpl.
  unfold at_. assert ((ip <? 0) = false) as -> by (apply Z.ltb_ge; lia).
  rewrite list_lookup_imap.
  destruct Hshape as (Ho & _).
  destruct (f_orig st !! Z.to_nat ip) as [v|] eqn:E.
  - simpl. rewrite Z2Nat.id by lia. reflexivity.
  - apply lookup_ge_None in E. lia.
Qed.

Lemma X9_Mult_leaves_restricted_residual_witness :
  exists st',
    Mult toy_norm toy [1%float; 2%float] (toy_state 7) = Done st' /\
    orig_at st' 3 = [1%float; 2%float].
Proof.
  eexists. split; [vm_compute; reflexivity|].
  apply (X9_Mult_leaves_restricted_residual toy_norm toy [1%float; 2%float] (toy_state 7)).
  - exact (toy_state_shape 7).
  - vm_compute. reflexivity.
  - simpl. lia.
Defined.

(** X10. [Mult] keeps sizes: the correction it returns has the size of the
    vector it was handed, every transfer buffer keeps its size, and the
    buffers are again in the shape the next application needs. *)
Theorem X10_Mult_keeps_sizes
    (Norml2 : Vector -> float) (d : DST) (r : Vector) (st st' : State) :
  constructed_shape d st ->
  Mult Norml2 d r st = Done st' ->
  length (z st') = length (z st) /\
  constructed_shape d st' /\
  (forall ip l, length (transf_at st' ip l) = length (transf_at st ip l)).
Proof.
  intros Hshape Hrun.
  pose proof (Mult_shape _ _ _ _ _ Hshape Hrun) as Hsh.
  split; [|split].
  - unfold shape in Hsh. congruence.
  - apply (constructed_shape_by_shape d st st'); [symmetry; exact Hsh|exact Hshape].
  - intros ip l. apply shape_transf_length. exact Hsh.
Qed.

Lemma X10_Mult_keeps_sizes_witness :
  exists st',
    Mult toy_norm toy [1%float; 0%float] (toy_state 7) = Done st' /\
    length (z st') = 2%nat /\ constructed_shape toy st'.
Proof.
  eexists. split; [vm_compute; reflexivity|].
  destruct (X10_Mult_keeps_sizes toy_norm toy [1%float; 0%float] (toy_state 7) _
              (toy_state_shape 7) ltac:(vm_compute; reflexivity)) as (Hz & Hs & _).
  split; [exact Hz|exact Hs].
Defined.

Lemma nth_SetSubVector_other (v : Vector) dofs elemv g :
  g ∉ dofs -> nth g (SetSubVector v dofs elemv) 0%float = nth g v 0%float.
Proof.
  unfold SetSubVector, Vector in *. revert v elemv.
  induction dofs as [|j dofs IH]; intros v elemv Hg; [reflexivity|].
  destruct elemv as [|x elemv]; [reflexivity|].
  apply not_elem_of_cons in Hg as [Hne Hg].
  simpl. rewrite (IH _ _ Hg). rewrite !nth_lookup.
  rewrite list_lookup_insert_ne by congruence. reflexivity.
Qed.

Lemma nth_add_zero g (a b : Vector) :
  nth g a 0%float = 0%float -> nth g b 0%float = 0%float ->
  nth g (Vec.add a b) 0%float = 0%float.
Proof.
  revert g b. induction a as [|x a IH]; intros g b Ha Hb; [destruct g; reflexivity|].
  destruct b as [|y b]; [exact Ha|].
  destruct g as [|g]; simpl in *.
  - subst. reflexivity.
  - apply IH; assumption.
Qed.

Lemma Mult_prologue_z d r st : z (Mult_prologue d r st) = Vec.zero (length (z st)).
Proof.
  unfold Mult_prologue. rewrite scatter_source_fields, reset_buffers_fields. reflexivity.
Qed.

(** X11. The correction is exactly zero at every global index that belongs
    to no patch of the grid: [Mult] adds to the output only through the
    index lists of the patches it visits. *)
Theorem X11_correction_vanishes_off_the_patches
    (Norml2 : Vector -> float) (d : DST) (r : Vector) (st st' : State) (g : nat) :
  Mult Norml2 d r st = Done st' ->
  (forall i j, 0 <= i < nxyz d 0 -> 0 <= j < nxyz d 1 ->
     g ∉ Dof2GlobalDof d (GetPatchId d [i; j])) ->
  nth g (z st') 0%float = 0%float.
Proof.
  intros Hrun Hout. revert Hrun. unfold Mult.
  apply (forM_invariant (fun s => nth g (z s) 0%float = 0%float)).
  - intros l s s' Hs. unfold sweep.
    apply (forM_invariant_in (fun s => nth g (z s) 0%float = 0%float)); [|exact Hs].
    intros [[fr i] j] s0 s0' Hin%elem_of_sweep_order Hs0.
    unfold visit_patch.
    destruct (Norml2 _ <? threshold)%float; [intros [= <-]; exact Hs0|].
    destruct (TransferSources _ _ _ _ _) as [s1|msg] eqn:Ht; simpl; [|discriminate].
    intros [= <-]. simpl.
    apply TransferSources_frame in Ht as [_ Hz]. simpl in Hz. rewrite Hz.
    apply nth_add_zero; [exact Hs0|].
    rewrite nth_SetSubVector_other by (apply Hout; lia).
    apply nth_zero.
  - rewrite Mult_prologue_z. apply nth_zero.
Qed.

Lemma X11_correction_vanishes_off_the_patches_witness :
  exists st',
    Mult toy_norm gapped gapped_residual gapped_state = Done st' /\
    length (z st') = 4%nat /\
    nth 0 (z st') 0%float <> 0%float /\
    nth 1 (z st') 0%float = 0%float.
Proof.
  eexists. split; [vm_compute; reflexivity|].
  split; [reflexivity|].
  split; [vm_compute; discriminate|].
  apply (X11_correction_vanishes_off_the_patches toy_norm gapped gapped_residual gapped_state).
  - vm_compute. reflexivity.
  - intros i j _ _. change (1%nat ∉ [0%nat; 2%nat]).
    intros H%list_elem_of_In. simpl in H. intuition discriminate.
Defined.

(** X12. The constructor allocates, for every patch, one original-source
    buffer, zeroed, and one transfer buffer per sweep, each with twice the
    patch's true-DOF count; the buffers are in the shape [Mult] expects. *)
Theorem X12_constructor_allocates_buffers
    (sv : Services) (Pmllength_ : Z -> Z -> float) (omega_ : float)
    (ws_ : Coefficient) (nrlayers_ : Z) (ip l : Z) :
  let d := (DST_new sv Pmllength_ omega_ ws_ nrlayers_).1 in
  let st := (DST_new sv Pmllength_ omega_ ws_ nrlayers_).2 in
  0 <= ip < nrpatch d -> 0 <= l < nsweeps d ->
  constructed_shape d st /\
  orig_at st ip = Vec.zero (Z.to_nat (2 * TrueVSize d ip)) /\
  length (transf_at st ip l) = Z.to_nat (2 * TrueVSize d ip) /\
  nsweeps d = 2 ^ mesh_Dimension sv.
Proof.
  intros d st Hip Hl.
  split; [apply DST_new_shape|].
  split; [|split; [apply DST_new_buffer_size; assumption|reflexivity]].
  unfold orig_at, st, DST_new. cbn [snd f_orig]. fold d.
  rewrite at_fmap_range by exact Hip. reflexivity.
Qed.

Lemma X12_constructor_allocates_buffers_witness :
  let d := (DST_new grid_services (fun _ _ => 1%float) 1%float (fun _ => 1%float) 2).1 in
  let st := (DST_new grid_services (fun _ _ => 1%float) 1%float (fun _ => 1%float) 2).2 in
  constructed_shape d st /\
  orig_at st 3 = [0%float; 0%float] /\
  length (transf_at st 3 3) = 2%nat /\
  nsweeps d = 4.
Proof.
  apply (X12_constructor_allocates_buffers grid_services (fun _ _ => 1%float) 1%float
           (fun _ => 1%float) 2 3 3); vm_compute; split; congruence.
Defined.

(** ** Device configuration *)

Module DevFacts.
Import Dev.

#[local] Open Scope nat_scope.

Lemma length_append (s t : string) :
  String.length (s +:+ t) = String.length s + String.length t.
Proof. induction s as [|a s IH]; simpl; [reflexivity|]. now rewrite IH. Qed.

Lemma append_assoc (a b c : string) : (a +:+ b) +:+ c = a +:+ (b +:+ c).
Proof. induction a as [|x a IH]; simpl; [reflexivity|]. now rewrite IH. Qed.

Lemma append_empty (s : string) : s +:+ EmptyString = s.
Proof. induction s as [|a s IH]; simpl; [reflexivity|]. now rewrite IH. Qed.

Lemma find_char_append_pre c pre s :
  find_char c (pre +:+ s) (String.length pre)
  = Nat.add (String.length pre) <$> find_char c s 0.
Proof.
  induction pre as [|a pre IH]; simpl.
  - destruct (find_char c s 0); reflexivity.
  - rewrite IH. destruct (find_char c s 0); reflexivity.
Qed.

Lemma find_char_append_none c it rest :
  find_char c it 0 = None ->
  find_char c (it +:+ rest) 0 = Nat.add (String.length it) <$> find_char c rest 0.
Proof.
  induction it as [|a it IH]; simpl.
  - intros _. destruct (find_char c rest 0); reflexivity.
  - destruct (Ascii.eqb a c); [discriminate|].
    destruct (find_char c it 0) eqn:E; [discriminate|]. intros _.
    rewrite IH by reflexivity. destruct (find_char c rest 0); reflexivity.
Qed.

Lemma substring_append_pre pre n s :
  substring (String.length pre) n (pre +:+ s) = substring 0 n s.
Proof. induction pre as [|a pre IH]; simpl; [reflexivity|exact IH]. Qed.

Lemma substring_prefix it rest :
  substring 0 (String.length it) (it +:+ rest) = it.
Proof.
  induction it as [|a it IH]; simpl.
  - destruct rest; reflexivity.
  - now rewrite IH.
Qed.

Lemma substring_all it : substring 0 (String.length it) it = it.
Proof.
  pose proof (substring_prefix it EmptyString) as H.
  now rewrite append_empty in H.
Qed.

(** One turn of the loop on an item that is followed by a comma ... *)
Lemma configure_loop_item fuel pre it tail m :
  find_char ","%char it 0 = None ->
  configure_loop (S fuel) (pre +:+ it +:+ ","%string +:+ tail) (String.length pre) m =
  match configure_item it m with
  | Aborted msg => Some (Aborted msg)
  | Done m' =>
      configure_loop fuel (pre +:+ it +:+ ","%string +:+ tail)
        (String.length (pre +:+ it +:+ ","%string)) m'
  end.
Proof.
  intros Hit. cbn [configure_loop].
  rewrite find_char_append_pre, (find_char_append_none _ _ _ Hit).
  change (find_char ","%char (","%string +:+ tail) 0) with (Some 0).
  cbn [fmap option_fmap option_map default from_option id].
  replace (String.length pre + (String.length it + 0) - String.length pre)
    with (String.length it) by lia.
  rewrite substring_append_pre, substring_prefix.
  destruct (configure_item it m) as [m'|msg]; [|reflexivity].
  rewrite !length_append. simpl String.length.
  match goal with
  | |- (if Nat.eqb ?a ?b then _ else _) = _ =>
      destruct (Nat.eqb_spec a b) as [E|_]; [lia|]
  end.
  f_equal. lia.
Qed.

(** ... and on the last item. *)
Lemma configure_loop_last fuel pre it m :
  find_char ","%char it 0 = None ->
  configure_loop (S fuel) (pre +:+ it) (String.length pre) m
  = Some (m' <-- configure_item it m ;; Done m').
Proof.
  intros Hit. cbn [configure_loop].
  rewrite find_char_append_pre, Hit.
  cbn [fmap option_fmap option_map default from_option id].
  rewrite length_append.
  replace (String.length pre + String.length it - String.length pre)
    with (String.length it) by lia.
  rewrite substring_append_pre.
  rewrite substring_all.
  destruct (configure_item it m) as [m'|msg]; [|reflexivity].
  rewrite Nat.eqb_refl. reflexivity.
Qed.

Lemma forM_last {A S} (body : A -> S -> outcome S) x s :
  forM body [x] s = (s' <-- body x s ;; Done s').
Proof. reflexivity. Qed.

Lemma configure_loop_items items :
  items <> [] ->
  Forall (fun it => find_char ","%char it 0 = None) items ->
  forall fuel pre m,
    length items <= fuel ->
    configure_loop fuel (pre +:+ String.concat ","%string items) (String.length pre) m
    = Some (forM configure_item items m).
Proof.
  induction items as [|it items IH]; [congruence|].
  intros _ Hall fuel pre m Hfuel.
  apply Forall_cons in Hall as [Hit Hall].
  destruct fuel as [|fuel]; [simpl in Hfuel; lia|].
  destruct items as [|it2 items].
  - cbn [String.concat]. rewrite (configure_loop_last _ _ _ _ Hit). reflexivity.
  - change (String.concat ","%string (it :: it2 :: items))
      with (it +:+ ","%string +:+ String.concat ","%string (it2 :: items)).
    rewrite (configure_loop_item _ _ _ _ _ Hit).
    cbn [forM]. destruct (configure_item it m) as [m'|msg]; [|reflexivity].
    cbn [obind].
    replace (pre +:+ it +:+ ","%string +:+ String.concat ","%string (it2 :: items))
      with ((pre +:+ it +:+ ","%string) +:+ String.concat ","%string (it2 :: items))
      by (now rewrite !append_assoc).
    apply IH; [discriminate|exact Hall|simpl in *; lia].
Qed.

Lemma length_concat_items items :
  items <> [] -> length items <= S (String.length (String.concat ","%string items)).
Proof.
  induction items as [|it items IH]; [congruence|]. intros _.
  destruct items as [|it2 items]; [simpl; lia|].
  change (String.concat ","%string (it :: it2 :: items))
    with (it +:+ ","%string +:+ String.concat ","%string (it2 :: items)).
  rewrite !length_append. specialize (IH ltac:(discriminate)).
  simpl in *. lia.
Qed.

Lemma Configure_backends_concat items m :
  items <> [] ->
  Forall (fun it => find_char ","%char it 0 = None) items ->
  Configure_backends (String.concat ","%string items) m
  = Some (forM configure_item items m).
Proof.
  intros Hne Hall. unfold Configure_backends.
  apply (configure_loop_items _ Hne Hall _ EmptyString m).
  apply length_concat_items, Hne.
Qed.

Lemma split_comma_spec s :
  split_comma s <> [] /\
  Forall (fun it => find_char ","%char it 0 = None) (split_comma s) /\
  String.concat ","%string (split_comma s) = s.
Proof.
  induction s as [|a s (Hne & Hall & Hcat)]; simpl.
  - repeat split; [discriminate|repeat constructor].
  - destruct (Ascii.eqb a ","%char) eqn:Ea.
    + apply Ascii.eqb_eq in Ea. subst a.
      repeat split; [discriminate|constructor; [reflexivity|exact Hall]|].
      destruct (split_comma s) as [|x xs]; [congruence|].
      change (String.concat ","%string (EmptyString :: x :: xs)) with (","%string +:+ String.concat ","%string (x :: xs)).
      rewrite Hcat. reflexivity.
    + destruct (split_comma s) as [|x xs]; [congruence|].
      apply Forall_cons in Hall as [Hx Hall].
      repeat split; [discriminate| |].
      * constructor; [|exact Hall]. simpl. rewrite Ea, Hx. reflexivity.
      * destruct xs as [|y ys]; simpl in *; now rewrite Hcat.
Qed.

(** The loop of [Configure] handles the items of the device string from
    left to right and stops at the first one that fails. *)
Lemma Configure_backends_items device m :
  Configure_backends device m = Some (forM configure_item (split_comma device) m).
Proof.
  destruct (split_comma_spec device) as (Hne & Hall & Hcat).
  rewrite <- Hcat at 1. apply Configure_backends_concat; assumption.
Qed.

Lemma configure_item_spec it m :
  configure_item it m =
  match bmap_find (item_backend it) with
  | None => Aborted (invalid_name (item_backend it))
  | Some b =>
      Done {| marked := marked m ++ [b];
              ceed_option := match item_option it with
                             | Some o => Some o
                             | None => ceed_option m
                             end;
              cout := cout m ++ match item_option it with
                                | Some o => ["libCEED backend: "%string +:+ o]
                                | None => []
                                end |}
  end.
Proof.
  unfold configure_item, item_backend, item_option.
  destruct (find_char ":"%char it 0) as [k|]; cbn [fmap option_fmap option_map].
  - destruct (bmap_find (substring 0 k it)); reflexivity.
  - destruct (bmap_find it); [|reflexivity].
    unfold MarkBackend. now rewrite app_nil_r.
Qed.

Lemma forM_configure_all_ok items ids :
  Forall2 (fun it b => bmap_find (item_backend it) = Some b) items ids ->
  forall m,
    forM configure_item items m =
    Done {| marked := marked m ++ ids;
            ceed_option := last_option items (ceed_option m);
            cout := cout m ++ omap (fun it => String.append "libCEED backend: "
                                                <$> item_option it) items |}.
Proof.
  induction 1 as [|it b items ids Hb _ IH]; intros m.
  - destruct m; simpl. now rewrite !app_nil_r.
  - cbn [forM]. rewrite configure_item_spec, Hb. cbn [obind].
    rewrite IH. cbn [marked ceed_option cout last_option foldl omap list_omap].
    rewrite <- !app_assoc.
    destruct (item_option it); reflexivity.
Qed.

Lemma in_bmap_rows k v : In (k, v) bmap -> (v, k) ∈ backend_rows.
Proof.
  unfold backend_rows, bmap, backend_list, backend_name. cbn [zip zip_with].
  intros Hin. rewrite list_elem_of_In.
  cbn [In] in *. intuition congruence.
Qed.

Lemma backend_rows_ok :
  Forall (fun row => find_char ","%char (snd row) 0 = None /\
                     find_char ":"%char (snd row) 0 = None /\
                     bmap_find (snd row) = Some (fst row)) backend_rows.
Proof.
  unfold backend_rows, backend_list, backend_name. cbn [zip zip_with].
  repeat (apply Forall_cons_2; [vm_compute; repeat split|]). apply Forall_nil_2.
Qed.

Lemma concat_snoc prev name :
  String.concat ","%string (prev ++ [name])
  = (String.concat ","%string prev
       +:+ (if nonempty prev then ","%string else EmptyString)) +:+ name.
Proof.
  induction prev as [|x xs IH]; [reflexivity|].
  destruct xs as [|y ys].
  - simpl. now rewrite append_assoc.
  - change (String.concat ","%string ((x :: y :: ys) ++ [name]))
      with (x +:+ ","%string +:+ String.concat ","%string ((y :: ys) ++ [name])).
    rewrite IH.
    change (String.concat ","%string (x :: y :: ys))
      with (x +:+ ","%string +:+ String.concat ","%string (y :: ys)).
    cbn [nonempty]. now rewrite !append_assoc.
Qed.

Lemma Print_fold bit backends rows prev :
  foldl (fun (acc : string * bool) (row : Backend * string) =>
           if negb (Z.eqb (Z.land backends (bit (fst row))) 0)
           then ((fst acc +:+ (if snd acc then ","%string else EmptyString))
                   +:+ snd row, true)
           else acc)
        (String.concat ","%string prev, nonempty prev) rows
  = (String.concat ","%string
       (prev ++ (snd <$> filter (fun row => Z.land backends (bit (fst row)) <> 0%Z) rows)),
     nonempty
       (prev ++ (snd <$> filter (fun row => Z.land backends (bit (fst row)) <> 0%Z) rows))).
Proof.
  revert prev. induction rows as [|row rows IH]; intros prev.
  - simpl. now rewrite app_nil_r.
  - cbn [foldl]. rewrite filter_cons.
    destruct (Z.eqb_spec (Z.land backends (bit (fst row))) 0) as [E|E]; cbn [negb fst snd].
    + rewrite decide_False by (intros H; apply H, E). apply IH.
    + rewrite decide_True by exact E.
      specialize (IH (prev ++ [snd row])).
      rewrite concat_snoc in IH.
      replace (nonempty (prev ++ [snd row])) with true in IH by (now destruct prev).
      rewrite IH. cbn [fmap list_fmap]. now rewrite <- app_assoc.
Qed.

Lemma forM_configure_rows rows :
  Forall (fun row => find_char ","%char (snd row) 0 = None /\
                     find_char ":"%char (snd row) 0 = None /\
                     bmap_find (snd row) = Some (fst row)) rows ->
  forall m,
    forM configure_item (snd <$> rows) m =
    Done {| marked := marked m ++ (fst <$> rows);
            ceed_option := ceed_option m; cout := cout m |}.
Proof.
  induction 1 as [|row rows (_ & Hcolon & Hfind) _ IH]; intros m.
  - destruct m; simpl. now rewrite app_nil_r.
  - cbn [fmap list_fmap forM]. unfold configure_item at 1.
    rewrite Hcolon, Hfind. cbn [obind]. rewrite IH.
    cbn [marked ceed_option cout MarkBackend]. now rewrite <- app_assoc.
Qed.

(** X13.  [Device::Configure] reads its argument as the texts between the
    commas, from left to right: the loop always reaches its [break] or an
    abort, and its result is that of running the loop body on each item in
    turn, stopping at the first abort.  The items are comma-free and,
    joined by commas, give the argument back. *)
Theorem X13_Configure_reads_items_left_to_right (device : string) (m : Marks) :
  String.concat ","%string (split_comma device) = device /\
  Forall (fun it => find_char ","%char it 0 = None) (split_comma device) /\
  Configure_backends device m = Some (forM configure_item (split_comma device) m).
Proof.
  destruct (split_comma_spec device) as (_ & Hall & Hcat).
  repeat split; [exact Hcat|exact Hall|apply Configure_backends_items].
Qed.

(** X14.  When the backend part of every item (the text before its first
    colon, or the whole item) is a name of the table, [Configure] finishes:
    it marks the named backends in the order of the string, [ceed_option]
    is the text after the first colon of the last item that has one (or
    is left as it was), and one line is printed per item with an option. *)
Theorem X14_Configure_marks_named_backends
    (device : string) (m : Marks) (ids : list Backend) :
  Forall2 (fun it b => bmap_find (item_backend it) = Some b) (split_comma device) ids ->
  Configure_backends device m =
  Some (Done {| marked := marked m ++ ids;
                ceed_option := last_option (split_comma device) (ceed_option m);
                cout := cout m ++ omap (fun it => String.append "libCEED backend: "
                                                    <$> item_option it)
                                       (split_comma device) |}).
Proof.
  intros Hids. rewrite Configure_backends_items.
  f_equal. apply forM_configure_all_ok, Hids.
Qed.

Lemma X14_Configure_marks_named_backends_witness :
  Configure_backends "cuda,ceed-cpu:/cpu/self"
    {| marked := []; ceed_option := None; cout := [] |} =
  Some (Done {| marked := [CUDA; CEED_CPU];
                ceed_option := Some "/cpu/self"%string;
                cout := ["libCEED backend: /cpu/self"%string] |}).
Proof.
  apply (X14_Configure_marks_named_backends "cuda,ceed-cpu:/cpu/self"
           {| marked := []; ceed_option := None; cout := [] |} [CUDA; CEED_CPU]).
  vm_compute. repeat constructor.
Defined.

(** X15.  [Configure] aborts at the first item whose backend part is not a
    name of the table, with the message that quotes that part; items
    after it are not looked at.  An empty item (an empty string, a
    doubled or a trailing comma) is such an item. *)
Theorem X15_Configure_rejects_first_unknown_name
    (device : string) (m : Marks) (good : list string) (bad : string)
    (rest : list string) :
  split_comma device = good ++ bad :: rest ->
  Forall (fun it => is_Some (bmap_find (item_backend it))) good ->
  bmap_find (item_backend bad) = None ->
  Configure_backends device m = Some (Aborted (invalid_name (item_backend bad))).
Proof.
  intros Hsplit Hgood Hbad. rewrite Configure_backends_items, Hsplit, forM_app.
  assert (Hids : exists ids,
             Forall2 (fun it b => bmap_find (item_backend it) = Some b) good ids).
  { clear Hsplit. induction Hgood as [|it good [b Hb] _ [ids IH]].
    - exists []. constructor.
    - exists (b :: ids). now constructor. }
  destruct Hids as [ids Hids].
  rewrite (forM_configure_all_ok _ _ Hids). cbn [obind forM].
  rewrite configure_item_spec, Hbad. reflexivity.
Qed.

Lemma X15_Configure_rejects_first_unknown_name_witness :
  Configure_backends "cpu,,cuda" {| marked := []; ceed_option := None; cout := [] |}
  = Some (Aborted "invalid backend name: ''").
Proof.
  apply (X15_Configure_rejects_first_unknown_name "cpu,,cuda"
           {| marked := []; ceed_option := None; cout := [] |}
           ["cpu"%string] EmptyString ["cuda"%string]).
  - reflexivity.
  - repeat constructor. vm_compute. eauto.
  - reflexivity.
Defined.

(** X16.  The lookup in [bmap] is exact: a text is accepted iff it is one
    of the eleven names of [backend_name], and the backend found is the
    entry of [backend_list] at the same index; no name contains a comma
    or a colon. *)
Theorem X16_bmap_is_the_table (name : string) (b : Backend) :
  (bmap_find name = Some b <-> (b, name) ∈ backend_rows) /\
  ((b, name) ∈ backend_rows ->
   find_char ","%char name 0 = None /\ find_char ":"%char name 0 = None).
Proof.
  pose proof backend_rows_ok as Hok. rewrite Forall_forall in Hok.
  split; [split|].
  - unfold bmap_find. destruct (List.find _ bmap) as [[k v]|] eqn:Hfind; [|discriminate].
    apply List.find_some in Hfind as [Hin Heq]. cbn [fst] in Heq.
    apply String.eqb_eq in Heq. subst k. intros [= <-]. apply in_bmap_rows, Hin.
  - intros Hin. apply (Hok _ Hin).
  - intros Hin. destruct (Hok _ Hin) as (H1 & H2 & _). split; assumption.
Qed.

(** X17.  [Device::Print] lists, after "Device configuration: ", the
    names of the backends whose bit is set, in priority order and
    separated by single commas, with no comma before the first or after
    the last, and ends the line. *)
Theorem X17_Print_lists_the_set_backends (bit : Backend -> Z) (backends : Z) :
  Print bit backends =
  "Device configuration: "%string
    +:+ String.concat ","%string (snd <$> selected bit backends)
    +:+ String (Ascii.ascii_of_nat 10) EmptyString.
Proof.
  unfold Print, Print_names, selected. do 2 f_equal.
  change (EmptyString, false)
    with (String.concat ","%string (@nil string), nonempty (@nil string)).
  rewrite Print_fold. reflexivity.
Qed.

(** X18.  The list that [Print] writes is a device string that
    [Configure] accepts whenever at least one backend is set: parsing it
    marks exactly the backends that were printed, in the same order, and
    sets no option. *)
Theorem X18_printed_list_parses_back (bit : Backend -> Z) (backends : Z) (m : Marks) :
  selected bit backends <> [] ->
  Configure_backends (Print_names bit backends) m =
  Some (Done {| marked := marked m ++ (fst <$> selected bit backends);
                ceed_option := ceed_option m; cout := cout m |}).
Proof.
  intros Hne.
  assert (Hsel : Forall (fun row => find_char ","%char (snd row) 0 = None /\
                                    find_char ":"%char (snd row) 0 = None /\
                                    bmap_find (snd row) = Some (fst row))
                        (selected bit backends)).
  { pose proof backend_rows_ok as Hok. rewrite Forall_forall in Hok |- *.
    intros row Hrow. apply Hok. unfold selected in Hrow.
    apply list_elem_of_filter in Hrow. tauto. }
  unfold Print_names.
  change (EmptyString, false)
    with (String.concat ","%string (@nil string), nonempty (@nil string)).
  rewrite Print_fold. cbn [fst app]. fold (selected bit backends).
  rewrite Configure_backends_concat.
  - f_equal. apply forM_configure_rows, Hsel.
  - destruct (selected bit backends); [congruence|discriminate].
  - rewrite Forall_fmap. eapply Forall_impl; [exact Hsel|]. intros row H. apply H.
Qed.

Lemma X18_printed_list_parses_back_witness :
  Configure_backends (Print_names example_bit 5)
    {| marked := []; ceed_option := None; cout := [] |} =
  Some (Done {| marked := [CUDA; CPU]; ceed_option := None; cout := [] |}).
Proof.
  apply (X18_printed_list_parses_back example_bit 5
           {| marked := []; ceed_option := None; cout := [] |}).
  vm_compute. discriminate.
Defined.

End DevFacts.

(** ** Kernel selection of the mass integrator *)

Module MassPAFacts.
Import MassPA.

#[local] Open Scope Z_scope.

Lemma kernel_id_small D1D Q1D :
  0 <= D1D -> 0 <= Q1D < 16 -> kernel_id D1D Q1D = 16 * D1D + Q1D.
Proof.
  intros HD HQ. unfold kernel_id.
  assert (Hland : Z.land (Z.shiftl D1D 4) Q1D = 0).
  { apply Z.bits_inj'. intros n Hn. rewrite Z.land_spec, Z.bits_0.
    destruct (Z.ltb_spec n 4) as [Hlt|Hge].
    - rewrite Z.shiftl_spec_low by exact Hlt. reflexivity.
    - assert (HQn : Z.testbit Q1D n = false).
      { destruct (Z.eq_dec Q1D 0) as [->|Hne]; [apply Z.bits_0|].
        apply Z.bits_above_log2; [lia|].
        assert (Z.log2 Q1D < 4) by (apply Z.log2_lt_pow2; lia). lia. }
      rewrite HQn. apply andb_false_r. }
  rewrite <- Z.lxor_lor by exact Hland.
  rewrite <- Z.add_nocarry_lxor by exact Hland.
  rewrite Z.shiftl_mul_pow2 by lia. lia.
Qed.

Lemma switch_cases {A} (id : Z) (cases : list (Z * A)) (default : A) :
  (switch id cases default = default /\ forall c, c ∈ cases -> fst c <> id) \/
  (id, switch id cases default) ∈ cases.
Proof.
  unfold switch. destruct (List.find _ cases) as [[k v]|] eqn:Hfind.
  - right. apply List.find_some in Hfind as [Hin Heq]. cbn [fst] in Heq.
    apply Z.eqb_eq in Heq. subst k. apply list_elem_of_In, Hin.
  - left. split; [reflexivity|]. intros c Hc Heq.
    apply list_elem_of_In in Hc.
    pose proof (List.find_none _ _ Hfind c Hc) as Hno.
    apply Z.eqb_neq in Hno. contradiction.
Qed.

Lemma sound_switch dim cases dflt D1D Q1D :
  sound_cases dim cases ->
  0 <= D1D -> 0 <= Q1D < 16 ->
  kernel_sizes dflt = (D1D, Q1D) -> kernel_dim dflt = dim ->
  let k := switch (kernel_id D1D Q1D) cases dflt in
  kernel_sizes k = (D1D, Q1D) /\ kernel_dim k = dim /\
  (specialised k = true \/ k = dflt).
Proof.
  intros Hsound HD HQ Hsz Hdim k. subst k.
  destruct (switch_cases (kernel_id D1D Q1D) cases dflt) as [[-> _]|Hin].
  - auto.
  - unfold sound_cases in Hsound. rewrite Forall_forall in Hsound.
    set (k := switch (kernel_id D1D Q1D) cases dflt) in *. clearbody k.
    destruct (Hsound _ Hin) as (Hkey & Hb & Hd & Hs). cbn [fst snd] in *.
    rewrite kernel_id_small in Hkey by assumption.
    destruct (kernel_sizes k) as [a b]. cbn [fst snd] in *.
    repeat split; [f_equal; lia|exact Hd|left; exact Hs].
Qed.

Lemma sound_AssembleDiagonal2D : sound_cases 2 AssembleDiagonal2D_cases.
Proof. repeat (apply Forall_cons_2; [vm_compute; intuition congruence|]). apply Forall_nil_2. Qed.

Lemma sound_AssembleDiagonal3D : sound_cases 3 AssembleDiagonal3D_cases.
Proof. repeat (apply Forall_cons_2; [vm_compute; intuition congruence|]). apply Forall_nil_2. Qed.

Lemma sound_Apply2D : sound_cases 2 Apply2D_cases.
Proof. repeat (apply Forall_cons_2; [vm_compute; intuition congruence|]). apply Forall_nil_2. Qed.

Lemma sound_Apply3D_Smem : sound_cases 3 (Apply3D_cases SmemPAMassApply3D).
Proof. repeat (apply Forall_cons_2; [vm_compute; intuition congruence|]). apply Forall_nil_2. Qed.

Lemma sound_Apply3D_Raja : sound_cases 3 (Apply3D_cases RajaSmemPAMassApply3D).
Proof. repeat (apply Forall_cons_2; [vm_compute; intuition congruence|]). apply Forall_nil_2. Qed.

Lemma switch_Done_cases (id : Z) (cases : list (Z * Kernel)) (msg : string) (k : Kernel) :
  switch id ((fun c => (fst c, Done (snd c))) <$> cases) (Aborted msg) = Done k ->
  (id, k) ∈ cases.
Proof.
  intros Hk.
  destruct (switch_cases id ((fun c => (fst c, Done (snd c))) <$> cases)
              (@Aborted Kernel msg)) as [[Hd _]|Hin].
  - rewrite Hd in Hk. discriminate.
  - rewrite Hk in Hin. apply list_elem_of_fmap in Hin as ([key k'] & [= -> ->] & Hin).
    exact Hin.
Qed.

Lemma switch_default {A} (id : Z) (cases : list (Z * A)) (default : A) :
  (forall c, c ∈ cases -> fst c <> id) -> switch id cases default = default.
Proof.
  intros Hno. unfold switch.
  destruct (List.find _ cases) as [[key v]|] eqn:Hfind; [|reflexivity].
  apply List.find_some in Hfind as [Hin Heq]. cbn [fst] in Heq.
  apply Z.eqb_eq in Heq. apply list_elem_of_In in Hin.
  destruct (Hno _ Hin). exact Heq.
Qed.

(** X19.  For sizes that fit the key ([D1D] non-negative and small enough
    for the shift, [Q1D] in 0..15) [PAMassAssembleDiagonal] runs a kernel
    only for [dim] 2 or 3, and the kernel is one for that dimension and
    for exactly these sizes: a specialised kernel whose template arguments
    are [D1D] and [Q1D], or else the generic kernel called with them. *)
Theorem X19_PAMassAssembleDiagonal_matches_sizes (dim D1D Q1D : Z) (k : Kernel) :
  0 <= D1D < 2 ^ 27 -> 0 <= Q1D < 16 ->
  PAMassAssembleDiagonal dim D1D Q1D = Done k ->
  (dim = 2 \/ dim = 3) /\
  kernel_dim k = dim /\ kernel_sizes k = (D1D, Q1D) /\
  (specialised k = true \/
   k = PAMassAssembleDiagonal2D D1D Q1D \/ k = PAMassAssembleDiagonal3D D1D Q1D).
Proof.
  intros [HD _] HQ. unfold PAMassAssembleDiagonal.
  destruct (Z.eqb_spec dim 2) as [->|H2]; [|destruct (Z.eqb_spec dim 3) as [->|H3]].
  - intros [= <-].
    destruct (sound_switch 2 _ (PAMassAssembleDiagonal2D D1D Q1D) D1D Q1D
                sound_AssembleDiagonal2D HD HQ eq_refl eq_refl) as (Hs & Hd & Hk).
    tauto.
  - intros [= <-].
    destruct (sound_switch 3 _ (PAMassAssembleDiagonal3D D1D Q1D) D1D Q1D
                sound_AssembleDiagonal3D HD HQ eq_refl eq_refl) as (Hs & Hd & Hk).
    tauto.
  - discriminate.
Qed.

Lemma X19_PAMassAssembleDiagonal_matches_sizes_witness :
  (2 = 2 \/ 2 = 3) /\
  kernel_dim (SmemPAMassAssembleDiagonal2D 4 4 8) = 2 /\
  kernel_sizes (SmemPAMassAssembleDiagonal2D 4 4 8) = (4, 4) /\
  (specialised (SmemPAMassAssembleDiagonal2D 4 4 8) = true \/
   SmemPAMassAssembleDiagonal2D 4 4 8 = PAMassAssembleDiagonal2D 4 4 \/
   SmemPAMassAssembleDiagonal2D 4 4 8 = PAMassAssembleDiagonal3D 4 4).
Proof.
  apply (X19_PAMassAssembleDiagonal_matches_sizes 2 4 4); [lia|lia|reflexivity].
Defined.

(** X20.  The same for [PAMassApply], whatever the two flags: a kernel
    is run only for [dim] 2 or 3, and it is one for that dimension and for
    exactly the sizes [D1D], [Q1D]; when the OCCA test holds it is the
    OCCA kernel, and in 3D, when the OCCA test fails and the condition of
    lines 1643-1644 holds, it is [RajaSmemPAMassApply3D<D1D,Q1D>]. *)
Theorem X20_PAMassApply_matches_sizes
    (occa allows_other : bool) (dim D1D Q1D : Z) (k : Kernel) :
  0 <= D1D < 2 ^ 27 -> 0 <= Q1D < 16 ->
  PAMassApply occa allows_other dim D1D Q1D = Done k ->
  (dim = 2 \/ dim = 3) /\
  kernel_dim k = dim /\ kernel_sizes k = (D1D, Q1D) /\
  (occa = true -> k = OccaPAMassApply2D D1D Q1D \/ k = OccaPAMassApply3D D1D Q1D) /\
  (occa = false -> allows_other = true -> dim = 3 ->
   k = RajaSmemPAMassApply3D D1D Q1D).
Proof.
  intros [HD _] HQ. unfold PAMassApply.
  destruct (Z.eqb_spec dim 2) as [->|H2]; [|destruct (Z.eqb_spec dim 3) as [->|H3]].
  - destruct occa.
    + intros [= <-]. cbn. intuition (auto; discriminate).
    + intros [= <-].
      destruct (sound_switch 2 _ (PAMassApply2D D1D Q1D) D1D Q1D
                  sound_Apply2D HD HQ eq_refl eq_refl) as (Hs & Hd & _).
      intuition (auto; discriminate).
  - destruct occa; [intros [= <-]; cbn; intuition (auto; discriminate)|].
    destruct allows_other.
    + intros Hk. apply switch_Done_cases in Hk.
      pose proof sound_Apply3D_Raja as Hsound.
      unfold sound_cases in Hsound. rewrite Forall_forall in Hsound.
      destruct (Hsound _ Hk) as (Hkey & Hb & Hd & _). cbn [fst snd] in *.
      rewrite kernel_id_small in Hkey by assumption.
      assert (Hraja : exists a b, k = RajaSmemPAMassApply3D a b).
      { unfold Apply3D_cases in Hk.
        apply list_elem_of_fmap in Hk as (c & [= _ ->] & _). eauto. }
      destruct Hraja as (a & b & ->). cbn [kernel_sizes kernel_dim fst snd] in *.
      assert (a = D1D /\ b = Q1D) as [-> ->] by lia.
      intuition (auto; discriminate).
    + intros [= <-].
      destruct (sound_switch 3 _ (PAMassApply3D D1D Q1D) D1D Q1D
                  sound_Apply3D_Smem HD HQ eq_refl eq_refl) as (Hs & Hd & _).
      intuition (auto; discriminate).
  - destruct occa; discriminate.
Qed.

Lemma X20_PAMassApply_matches_sizes_witness :
  (3 = 2 \/ 3 = 3) /\
  kernel_dim (RajaSmemPAMassApply3D 4 5) = 3 /\
  kernel_sizes (RajaSmemPAMassApply3D 4 5) = (4, 5) /\
  (false = true -> RajaSmemPAMassApply3D 4 5 = OccaPAMassApply2D 4 5 \/
                   RajaSmemPAMassApply3D 4 5 = OccaPAMassApply3D 4 5) /\
  (false = false -> true = true -> 3 = 3 ->
   RajaSmemPAMassApply3D 4 5 = RajaSmemPAMassApply3D 4 5).
Proof.
  apply (X20_PAMassApply_matches_sizes false true 3 4 5); [lia|lia|reflexivity].
Defined.

(** X21.  In 3D the branch taken when the condition of lines 1643-1644
    holds has no generic fallback: for a pair of sizes whose key is none
    of the thirteen labels, [PAMassApply] stops there with "RAJA case not
    supported", where with the condition false the same sizes run the
    generic kernel [PAMassApply3D]. *)
Theorem X21_flagged_3D_branch_has_no_generic_kernel (D1D Q1D : Z) :
  0 <= D1D < 2 ^ 27 -> 0 <= Q1D < 2 ^ 31 ->
  (forall c, c ∈ Apply3D_labels -> fst c <> kernel_id D1D Q1D) ->
  PAMassApply false true 3 D1D Q1D
  = Aborted (String.append "RAJA case not supported "
               (String (Ascii.ascii_of_nat 10) EmptyString)) /\
  PAMassApply false false 3 D1D Q1D = Done (PAMassApply3D D1D Q1D).
Proof.
  intros _ _ Hno. unfold PAMassApply. cbn [Z.eqb Pos.eqb]. split.
  - apply switch_default. intros c Hc.
    apply list_elem_of_fmap in Hc as (c1 & -> & Hc1).
    unfold Apply3D_cases in Hc1. apply list_elem_of_fmap in Hc1 as (c0 & -> & Hc0).
    cbn [fst]. apply Hno, Hc0.
  - f_equal. apply switch_default. intros c Hc.
    unfold Apply3D_cases in Hc. apply list_elem_of_fmap in Hc as (c0 & -> & Hc0).
    cbn [fst]. apply Hno, Hc0.
Qed.

Lemma X21_flagged_3D_branch_has_no_generic_kernel_witness :
  PAMassApply false true 3 2 2
  = Aborted (String.append "RAJA case not supported "
               (String (Ascii.ascii_of_nat 10) EmptyString)) /\
  PAMassApply false false 3 2 2 = Done (PAMassApply3D 2 2).
Proof.
  apply (X21_flagged_3D_branch_has_no_generic_kernel 2 2); [lia|lia|].
  intros c Hc. apply list_elem_of_In in Hc. vm_compute in Hc |- *.
  intuition (subst; discriminate).
Defined.

(** X22.  For a dimension other than 2 and 3 no kernel is run: both
    dispatch functions abort, with "Unknown kernel." or, under OCCA, with
    the OCCA message, whatever the sizes. *)
Theorem X22_other_dimensions_abort (raja : bool) (dim D1D Q1D : Z) :
  dim <> 2 -> dim <> 3 ->
  PAMassAssembleDiagonal dim D1D Q1D = Aborted "Unknown kernel." /\
  PAMassApply false raja dim D1D Q1D = Aborted "Unknown kernel." /\
  PAMassApply true raja dim D1D Q1D = Aborted "OCCA PA Mass Apply unknown kernel!".
Proof.
  intros H2 H3. unfold PAMassAssembleDiagonal, PAMassApply.
  destruct (Z.eqb_spec dim 2) as [?|_]; [contradiction|].
  destruct (Z.eqb_spec dim 3) as [?|_]; [contradiction|].
  repeat split.
Qed.

Lemma X22_other_dimensions_abort_witness :
  PAMassAssembleDiagonal 1 2 2 = Aborted "Unknown kernel." /\
  PAMassApply false false 1 2 2 = Aborted "Unknown kernel." /\
  PAMassApply true false 1 2 2 = Aborted "OCCA PA Mass Apply unknown kernel!".
Proof.
  apply (X22_other_dimensions_abort false 1 2 2); lia.
Defined.

(** The bound on [Q1D] is needed: the key folds larger values onto the
    labels of other sizes. *)
Example key_needs_small_Q1D :
  PAMassApply false false 2 1 35 = Done (SmemPAMassApply2D 3 3 16).
Proof. reflexivity. Qed.

End MassPAFacts.
